(** * heredity.py: exact inference of gene and trait marginals over a pedigree

    A shallow embedding of [src/heredity/heredity.py].

    Modelling conventions.
    - Python floats are idealised as exact rationals ([Qc], canonical
      fractions with Leibniz equality).  Where rounding decides a
      property, the numeric functions are embedded a second time over
      IEEE 754 binary64 floats, in the module [Binary64].
    - A Python [dict] is an association list in insertion order whose keys
      are pairwise distinct ([Dict.wf]).
    - A Python [set] of names is a duplicate-free list; the order in which
      [list(s)] walks a set is not fixed by the language, so every function
      that iterates a set takes that order as a parameter [order].
    - A raising computation returns [Raise e], [e] being the name of the
      Python exception class. *)

From Stdlib Require Import QArith Qcanon List String Bool Arith Permutation Lia.
From Stdlib Require Import Sorted.
From Stdlib Require Import PrimFloat.
From Stdlib Require DecimalString.
Import ListNotations.

Local Open Scope string_scope.
Local Open Scope list_scope.
Local Open Scope Qc_scope.

(* A decimal float literal is read as the nearest binary64 value, as Python
   reads it. *)
Set Warnings "-inexact-float".

(** ** Exceptions *)

Inductive result (A : Type) : Type :=
| Ok (a : A)
| Raise (e : string).

Arguments Ok {A} a.
Arguments Raise {A} e.

Definition bind {A B : Type} (m : result A) (k : A -> result B) : result B :=
  match m with
  | Ok a => k a
  | Raise e => Raise e
  end.

Notation "x <- m ;; k" := (bind m (fun x => k))
  (at level 61, m at next level, right associativity).

Fixpoint mapM {A B : Type} (f : A -> result B) (l : list A) : result (list B) :=
  match l with
  | [] => Ok []
  | a :: l' => b <- f a ;; bs <- mapM f l' ;; Ok (b :: bs)
  end.

Fixpoint foldM {A S : Type} (f : S -> A -> result S) (l : list A) (s : S) : result S :=
  match l with
  | [] => Ok s
  | a :: l' => s' <- f s a ;; foldM f l' s'
  end.

(** ** Dictionaries and sets *)

Module Dict.

Definition t (V : Type) := list (string * V).

Definition keys {V} (d : t V) : list string := map fst d.

Definition wf {V} (d : t V) : Prop := NoDup (keys d).

(** [d[k]], raising [KeyError] on a missing key. *)
Fixpoint get {V} (d : t V) (k : string) : result V :=
  match d with
  | [] => Raise "KeyError"
  | (k', v) :: d' => if String.eqb k k' then Ok v else get d' k
  end.

(** [d[k] = v]: overwrite in place, or append a new key. *)
Fixpoint set {V} (d : t V) (k : string) (v : V) : t V :=
  match d with
  | [] => [(k, v)]
  | (k', v') :: d' =>
      if String.eqb k k' then (k', v) :: d' else (k', v') :: set d' k v
  end.

Definition mem {V} (d : t V) (k : string) : bool :=
  existsb (String.eqb k) (keys d).

End Dict.

Abbreviation pyset := (list string) (only parsing).

(** [x in s] *)
Definition set_in (x : string) (s : pyset) : bool := existsb (String.eqb x) s.

(** [a - b] *)
Definition set_diff (a b : pyset) : pyset :=
  filter (fun x => negb (set_in x b)) a.

(** ** The fixed tables, [PROBS] *)

Definition PROBS_gene (gene : nat) : result Qc :=
  match gene with
  | 2%nat => Ok (Q2Qc (1 # 100))
  | 1%nat => Ok (Q2Qc (3 # 100))
  | 0%nat => Ok (Q2Qc (96 # 100))
  | _ => Raise "KeyError"
  end.

Definition PROBS_trait (gene : nat) (trait : bool) : result Qc :=
  match gene, trait with
  | 2%nat, true => Ok (Q2Qc (65 # 100))
  | 2%nat, false => Ok (Q2Qc (35 # 100))
  | 1%nat, true => Ok (Q2Qc (56 # 100))
  | 1%nat, false => Ok (Q2Qc (44 # 100))
  | 0%nat, true => Ok (Q2Qc (1 # 100))
  | 0%nat, false => Ok (Q2Qc (99 # 100))
  | _, _ => Raise "KeyError"
  end.

Definition PROBS_mutation : Qc := Q2Qc (1 # 100).

Definition one_half : Qc := Q2Qc (1 # 2).

(** ** People, as [load_data] builds them *)

Record person : Type := mkPerson {
  name : string;
  mother : option string;
  father : option string;
  trait : option bool
}.

(** One row of the CSV file, as [csv.DictReader] yields it. *)
Record csv_row : Type := mkRow {
  row_name : string;
  row_mother : string;
  row_father : string;
  row_trait : string
}.

(** [s or None] *)
Definition or_None (s : string) : option string :=
  if String.eqb s "" then None else Some s.

(** The dictionary literal built for one row. *)
Definition person_of_row (row : csv_row) : person :=
  {| name := row_name row;
     mother := or_None (row_mother row);
     father := or_None (row_father row);
     trait := if String.eqb (row_trait row) "1" then Some true
              else if String.eqb (row_trait row) "0" then Some false
              else None |}.

Definition load_data (rows : list csv_row) : Dict.t person :=
  fold_left (fun data row => Dict.set data (row_name row) (person_of_row row))
            rows [].

(** ** [powerset] *)

(** [itertools.combinations(s, r)], in the order itertools yields them. *)
Fixpoint combinations {A} (s : list A) (r : nat) : list (list A) :=
  match r with
  | O => [[]]
  | S r' =>
      match s with
      | [] => []
      | x :: s' => map (cons x) (combinations s' r') ++ combinations s' r
      end
  end.

Section SetOrder.

(** The order in which [list(s)] walks the set [s]. *)
Variable order : pyset -> list string.

Definition powerset (s : pyset) : list pyset :=
  let s := order s in
  flat_map (combinations s) (seq 0 (List.length s + 1)).

End SetOrder.

(** ** [get_gene_numbers] *)

(** The branch taken for one name. *)
Definition gene_number (one_gene two_genes : pyset) (name : string) : nat :=
  if set_in name one_gene then 1
  else if set_in name two_genes then 2
  else 0.

(** One entry for each key of [people], in the same order. *)
Definition get_gene_numbers {V} (people : Dict.t V) (one_gene two_genes : pyset)
  : Dict.t nat :=
  map (fun '(name, _) => (name, gene_number one_gene two_genes name)) people.

(** ** [parent_giving] *)

Definition parent_giving (parent_gene : nat) (giving : bool) : Qc :=
  if giving then
    match parent_gene with
    | 0%nat => PROBS_mutation
    | 1%nat => one_half
    | _ => 1 - PROBS_mutation
    end
  else
    match parent_gene with
    | 0%nat => 1 - PROBS_mutation
    | 1%nat => one_half
    | _ => PROBS_mutation
    end.

(** ** [joint_probability] *)

(** [o is None] *)
Definition is_None {A} (o : option A) : bool :=
  match o with None => true | Some _ => false end.

(** [genes[k]] where [k] may be [None]: [None] is never a key. *)
Definition get_opt {V} (d : Dict.t V) (k : option string) : result V :=
  match k with
  | Some k => Dict.get d k
  | None => Raise "KeyError"
  end.

(** [reduce(lambda x, y: x * y, values)], without an initial value. *)
Definition reduce_mul (values : list Qc) : result Qc :=
  match values with
  | [] => Raise "TypeError"
  | x :: rest => Ok (fold_left Qcmult rest x)
  end.

(** The body of the loop over [has_no_parents]. *)
Definition root_prob (genes : Dict.t nat) (have_trait : pyset)
  (entry : string * person) : result Qc :=
  let name := fst entry in
  gene <- Dict.get genes name ;;
  pg <- PROBS_gene gene ;;
  pt <- PROBS_trait gene (set_in name have_trait) ;;
  Ok (pg * pt).

(** The [if gene == 0 / elif gene == 1 / else] of the loop over
    [has_parents]: the chance of the child's gene count, given the counts
    of its two parents. *)
Definition inherit_prob (mother_gene father_gene gene : nat) : Qc :=
  match gene with
  | 0%nat => parent_giving mother_gene false * parent_giving father_gene false
  | 1%nat => parent_giving mother_gene false * parent_giving father_gene true
             + parent_giving mother_gene true * parent_giving father_gene false
  | _ => parent_giving mother_gene true * parent_giving father_gene true
  end.

(** The body of the loop over [has_parents]. *)
Definition child_prob (genes : Dict.t nat) (have_trait : pyset)
  (entry : string * person) : result Qc :=
  let name := fst entry in
  let mother := mother (snd entry) in
  let father := father (snd entry) in
  mother_gene <- get_opt genes mother ;;
  father_gene <- get_opt genes father ;;
  gene <- Dict.get genes name ;;
  let prob := inherit_prob mother_gene father_gene gene in
  pt <- PROBS_trait gene (set_in name have_trait) ;;
  Ok (prob * pt).

(** The people are split on [mother is None]; the values of the local
    [probabilities] are those of the first loop followed by those of the
    second, the keys of the two being distinct. *)
Definition joint_probability (people : Dict.t person)
  (one_gene two_genes have_trait : pyset) : result Qc :=
  let has_no_parents := filter (fun e => is_None (mother (snd e))) people in
  let has_parents := filter (fun e => negb (is_None (mother (snd e)))) people in
  let genes := get_gene_numbers people one_gene two_genes in
  roots <- mapM (root_prob genes have_trait) has_no_parents ;;
  children <- mapM (child_prob genes have_trait) has_parents ;;
  reduce_mul (roots ++ children).

(** ** The accumulator: [update] and [normalize] *)

(** The two inner mappings, with their literal keys in the order of the
    source, and the pair of them kept for each person. *)
Record gene_dist : Type := mkGene { gene2 : Qc; gene1 : Qc; gene0 : Qc }.
Record trait_dist : Type := mkTrait { traitT : Qc; traitF : Qc }.
Record marginals : Type := mkMarg { gene : gene_dist; trait_d : trait_dist }.

Definition zero_marginals : marginals :=
  {| gene := mkGene 0 0 0; trait_d := mkTrait 0 0 |}.

(** The comprehension at the head of [main]. *)
Definition init_probabilities (people : Dict.t person) : Dict.t marginals :=
  map (fun e => (fst e, zero_marginals)) people.

(** [d[k] += p] on the three-key gene mapping. *)
Definition gene_add (d : gene_dist) (k : nat) (p : Qc) : result gene_dist :=
  match k with
  | 0%nat => Ok (mkGene (gene2 d) (gene1 d) (gene0 d + p))
  | 1%nat => Ok (mkGene (gene2 d) (gene1 d + p) (gene0 d))
  | 2%nat => Ok (mkGene (gene2 d + p) (gene1 d) (gene0 d))
  | _ => Raise "KeyError"
  end.

(** [d[k] += p] on the two-key trait mapping. *)
Definition trait_add (d : trait_dist) (k : bool) (p : Qc) : trait_dist :=
  if k then mkTrait (traitT d + p) (traitF d) else mkTrait (traitT d) (traitF d + p).

(** Every person is visited once; an exception drops the accumulator. *)
Definition update (probabilities : Dict.t marginals)
  (one_gene two_genes have_trait : pyset) (p : Qc) : result (Dict.t marginals) :=
  let genes := get_gene_numbers probabilities one_gene two_genes in
  mapM (fun e =>
          let name := fst e in
          g <- Dict.get genes name ;;
          gd <- gene_add (gene (snd e)) g p ;;
          Ok (name, mkMarg gd (trait_add (trait_d (snd e)) (set_in name have_trait) p)))
       probabilities.

(** [x / y] on numbers. *)
Definition py_div (x y : Qc) : result Qc :=
  if Qc_eq_dec y 0 then Raise "ZeroDivisionError" else Ok (x / y).

(** [sum(d.values())] *)
Definition gene_total (d : gene_dist) : Qc := 0 + gene2 d + gene1 d + gene0 d.
Definition trait_total (d : trait_dist) : Qc := 0 + traitT d + traitF d.

(** The body of the loop of [normalize]: both totals are taken first,
    then the gene entries are divided, then the trait entries. *)
Definition normalize_one (m : marginals) : result marginals :=
  let total_gene := gene_total (gene m) in
  let total_trait := trait_total (trait_d m) in
  g2 <- py_div (gene2 (gene m)) total_gene ;;
  g1 <- py_div (gene1 (gene m)) total_gene ;;
  g0 <- py_div (gene0 (gene m)) total_gene ;;
  tT <- py_div (traitT (trait_d m)) total_trait ;;
  tF <- py_div (traitF (trait_d m)) total_trait ;;
  Ok (mkMarg (mkGene g2 g1 g0) (mkTrait tT tF)).

Definition normalize (probabilities : Dict.t marginals) : result (Dict.t marginals) :=
  mapM (fun e => m <- normalize_one (snd e) ;; Ok (fst e, m)) probabilities.

(** ** The enumeration loop of [main] *)

Section Main.

Variable order : pyset -> list string.

(** [any(... for person in names)] for one candidate trait set. *)
Definition fails_evidence (people : Dict.t person) (names have_trait : pyset)
  : result bool :=
  foldM (fun found person =>
           if found : bool then Ok true else
           p <- Dict.get people person ;;
           Ok (match trait p with
               | None => false
               | Some t => negb (Bool.eqb t (set_in person have_trait))
               end))
        (order names) false.

(** The body of the innermost loop. *)
Definition step (people : Dict.t person) (one_gene two_genes have_trait : pyset)
  (probabilities : Dict.t marginals) : result (Dict.t marginals) :=
  p <- joint_probability people one_gene two_genes have_trait ;;
  update probabilities one_gene two_genes have_trait p.

(** The three nested loops, from the zeroed accumulator. *)
Definition enumerate (people : Dict.t person) : result (Dict.t marginals) :=
  let names : pyset := Dict.keys people in
  foldM (fun probabilities have_trait =>
           fails <- fails_evidence people names have_trait ;;
           if fails : bool then Ok probabilities else
           foldM (fun probabilities one_gene =>
                    foldM (fun probabilities two_genes =>
                             step people one_gene two_genes have_trait probabilities)
                          (powerset order (set_diff names one_gene))
                          probabilities)
                 (powerset order names)
                 probabilities)
        (powerset order names)
        (init_probabilities people).

(** The part of [main] after loading: enumerate, then normalize. *)
Definition infer (people : Dict.t person) : result (Dict.t marginals) :=
  probabilities <- enumerate people ;;
  normalize probabilities.

(** [main], from the rows of the file to the table it prints. *)
Definition main (rows : list csv_row) : result (Dict.t marginals) :=
  infer (load_data rows).

End Main.

(** ** The same run in binary64 arithmetic *)

(** Python's [float] is the IEEE 754 binary64 format, and so are the
    kernel's primitive floats: [+], [-], [*] and [/] round to nearest,
    ties to even, as CPython's do.  The functions of the source that
    compute with numbers are embedded a second time over these floats;
    those that do not ([load_data], [powerset], [get_gene_numbers], the
    evidence check) are shared with the embedding above. *)
Module Binary64.

Local Open Scope float_scope.

Definition PROBS_gene (gene : nat) : result float :=
  match gene with
  | 2%nat => Ok 0.01
  | 1%nat => Ok 0.03
  | 0%nat => Ok 0.96
  | _ => Raise "KeyError"
  end.

Definition PROBS_trait (gene : nat) (trait : bool) : result float :=
  match gene, trait with
  | 2%nat, true => Ok 0.65
  | 2%nat, false => Ok 0.35
  | 1%nat, true => Ok 0.56
  | 1%nat, false => Ok 0.44
  | 0%nat, true => Ok 0.01
  | 0%nat, false => Ok 0.99
  | _, _ => Raise "KeyError"
  end.

Definition PROBS_mutation : float := 0.01.

Definition parent_giving (parent_gene : nat) (giving : bool) : float :=
  if giving then
    match parent_gene with
    | 0%nat => PROBS_mutation
    | 1%nat => 0.5
    | _ => 1 - PROBS_mutation
    end
  else
    match parent_gene with
    | 0%nat => 1 - PROBS_mutation
    | 1%nat => 0.5
    | _ => PROBS_mutation
    end.

(** [reduce(lambda x, y: x * y, values)], without an initial value. *)
Definition reduce_mul (values : list float) : result float :=
  match values with
  | [] => Raise "TypeError"
  | x :: rest => Ok (fold_left PrimFloat.mul rest x)
  end.

Definition root_prob (genes : Dict.t nat) (have_trait : pyset)
  (entry : string * person) : result float :=
  let name := fst entry in
  gene <- Dict.get genes name ;;
  pg <- PROBS_gene gene ;;
  pt <- PROBS_trait gene (set_in name have_trait) ;;
  Ok (pg * pt).

Definition inherit_prob (mother_gene father_gene gene : nat) : float :=
  match gene with
  | 0%nat => parent_giving mother_gene false * parent_giving father_gene false
  | 1%nat => parent_giving mother_gene false * parent_giving father_gene true
             + parent_giving mother_gene true * parent_giving father_gene false
  | _ => parent_giving mother_gene true * parent_giving father_gene true
  end.

Definition child_prob (genes : Dict.t nat) (have_trait : pyset)
  (entry : string * person) : result float :=
  let name := fst entry in
  let mother := mother (snd entry) in
  let father := father (snd entry) in
  mother_gene <- get_opt genes mother ;;
  father_gene <- get_opt genes father ;;
  gene <- Dict.get genes name ;;
  let prob := inherit_prob mother_gene father_gene gene in
  pt <- PROBS_trait gene (set_in name have_trait) ;;
  Ok (prob * pt).

Definition joint_probability (people : Dict.t person)
  (one_gene two_genes have_trait : pyset) : result float :=
  let has_no_parents := filter (fun e => is_None (mother (snd e))) people in
  let has_parents := filter (fun e => negb (is_None (mother (snd e)))) people in
  let genes := get_gene_numbers people one_gene two_genes in
  roots <- mapM (root_prob genes have_trait) has_no_parents ;;
  children <- mapM (child_prob genes have_trait) has_parents ;;
  reduce_mul (roots ++ children).

Record gene_dist : Type := mkGene { gene2 : float; gene1 : float; gene0 : float }.
Record trait_dist : Type := mkTrait { traitT : float; traitF : float }.
Record marginals : Type := mkMarg { gene : gene_dist; trait_d : trait_dist }.

(** The integer [0] of the source: [0 + p] is the float [p], as [0.0 + p]
    is for every [p] the loop adds. *)
Definition zero_marginals : marginals :=
  {| gene := mkGene 0 0 0; trait_d := mkTrait 0 0 |}.

Definition init_probabilities (people : Dict.t person) : Dict.t marginals :=
  map (fun e => (fst e, zero_marginals)) people.

Definition gene_add (d : gene_dist) (k : nat) (p : float) : result gene_dist :=
  match k with
  | 0%nat => Ok (mkGene (gene2 d) (gene1 d) (gene0 d + p))
  | 1%nat => Ok (mkGene (gene2 d) (gene1 d + p) (gene0 d))
  | 2%nat => Ok (mkGene (gene2 d + p) (gene1 d) (gene0 d))
  | _ => Raise "KeyError"
  end.

Definition trait_add (d : trait_dist) (k : bool) (p : float) : trait_dist :=
  if k then mkTrait (traitT d + p) (traitF d) else mkTrait (traitT d) (traitF d + p).

Definition update (probabilities : Dict.t marginals)
  (one_gene two_genes have_trait : pyset) (p : float) : result (Dict.t marginals) :=
  let genes := get_gene_numbers probabilities one_gene two_genes in
  mapM (fun e =>
          let name := fst e in
          g <- Dict.get genes name ;;
          gd <- gene_add (gene (snd e)) g p ;;
          Ok (name, mkMarg gd (trait_add (trait_d (snd e)) (set_in name have_trait) p)))
       probabilities.

Definition py_div (x y : float) : result float :=
  if PrimFloat.eqb y 0 then Raise "ZeroDivisionError" else Ok (x / y).

(** [sum(values)] as CPython computes it up to version 3.11: the values
    are added from left to right, starting from the integer [0]. *)
Definition sum_plain (values : list float) : float :=
  fold_left PrimFloat.add values 0.

(** [sum(values)] as CPython computes it from version 3.12 on: the first
    float is added to the integer [0], the others are added with
    Neumaier's compensation, and the compensation is added last when it
    is not zero. *)
Definition sum_compensated (values : list float) : float :=
  match values with
  | [] => 0
  | x0 :: rest =>
      let '(hi, c) :=
        fold_left (fun '(hi, c) x =>
                     let t := hi + x in
                     if PrimFloat.leb (PrimFloat.abs x) (PrimFloat.abs hi)
                     then (t, c + ((hi - t) + x))
                     else (t, c + ((x - t) + hi)))
                  rest (0 + x0, 0) in
      if PrimFloat.eqb c 0 then hi else hi + c
  end.

Section Sum.

(** The way the interpreter at hand computes [sum]. *)
Variable sum : list float -> float.

Definition normalize_one (m : marginals) : result marginals :=
  let total_gene := sum [gene2 (gene m); gene1 (gene m); gene0 (gene m)] in
  let total_trait := sum [traitT (trait_d m); traitF (trait_d m)] in
  g2 <- py_div (gene2 (gene m)) total_gene ;;
  g1 <- py_div (gene1 (gene m)) total_gene ;;
  g0 <- py_div (gene0 (gene m)) total_gene ;;
  tT <- py_div (traitT (trait_d m)) total_trait ;;
  tF <- py_div (traitF (trait_d m)) total_trait ;;
  Ok (mkMarg (mkGene g2 g1 g0) (mkTrait tT tF)).

Definition normalize (probabilities : Dict.t marginals) : result (Dict.t marginals) :=
  mapM (fun e => m <- normalize_one (snd e) ;; Ok (fst e, m)) probabilities.

Variable order : pyset -> list string.

Definition step (people : Dict.t person) (one_gene two_genes have_trait : pyset)
  (probabilities : Dict.t marginals) : result (Dict.t marginals) :=
  p <- joint_probability people one_gene two_genes have_trait ;;
  update probabilities one_gene two_genes have_trait p.

Definition enumerate (people : Dict.t person) : result (Dict.t marginals) :=
  let names : pyset := Dict.keys people in
  foldM (fun probabilities have_trait =>
           fails <- fails_evidence order people names have_trait ;;
           if fails : bool then Ok probabilities else
           foldM (fun probabilities one_gene =>
                    foldM (fun probabilities two_genes =>
                             step people one_gene two_genes have_trait probabilities)
                          (powerset order (set_diff names one_gene))
                          probabilities)
                 (powerset order names)
                 probabilities)
        (powerset order names)
        (init_probabilities people).

Definition infer (people : Dict.t person) : result (Dict.t marginals) :=
  probabilities <- enumerate people ;;
  normalize probabilities.

Definition main (rows : list csv_row) : result (Dict.t marginals) :=
  infer (load_data rows).

End Sum.

End Binary64.

(** * Notions used in the statements *)

(** ** The accumulator *)

(** What [normalize] makes of one person's buckets when no total is
    zero. *)
Definition normalized (m : marginals) : marginals :=
  let tg := gene_total (gene m) in
  let tt := trait_total (trait_d m) in
  mkMarg (mkGene (gene2 (gene m) / tg) (gene1 (gene m) / tg) (gene0 (gene m) / tg))
         (mkTrait (traitT (trait_d m) / tt) (traitF (trait_d m) / tt)).

(** An accumulator holding one person whose buckets are all zero. *)
Definition untouched : Dict.t marginals := [("Harry", zero_marginals)].

(** An accumulator after one hypothesis of probability 1/4 for one person. *)
Definition quarter : Dict.t marginals :=
  [("Harry", mkMarg (mkGene 0 (Q2Qc (1 # 4)) 0) (mkTrait (Q2Qc (1 # 4)) 0))].

(** What one [update] does to one person's buckets. *)
Definition bump (m : marginals) (g : nat) (t : bool) (p : Qc) : marginals :=
  mkMarg
    (match g with
     | 0%nat => mkGene (gene2 (gene m)) (gene1 (gene m)) (gene0 (gene m) + p)
     | 1%nat => mkGene (gene2 (gene m)) (gene1 (gene m) + p) (gene0 (gene m))
     | _ => mkGene (gene2 (gene m) + p) (gene1 (gene m)) (gene0 (gene m))
     end)
    (trait_add (trait_d m) t p).

(** What one [update] does to the whole accumulator. *)
Definition bump_all (one_gene two_genes have_trait : pyset) (p : Qc)
  (probabilities : Dict.t marginals) : Dict.t marginals :=
  map (fun e => (fst e,
                 bump (snd e) (gene_number one_gene two_genes (fst e))
                      (set_in (fst e) have_trait) p))
      probabilities.





(** ** The joint probability, as the specification words it *)

(** The tables and formulas in the words of the specification. *)
Module Spec.

Definition GenePrior (g : nat) : Qc :=
  match g with
  | 0%nat => Q2Qc (96 # 100)
  | 1%nat => Q2Qc (3 # 100)
  | _ => Q2Qc (1 # 100)
  end.

Definition TraitGivenGene (g : nat) (t : bool) : Qc :=
  match g, t with
  | 0%nat, true => Q2Qc (1 # 100)
  | 0%nat, false => Q2Qc (99 # 100)
  | 1%nat, true => Q2Qc (56 # 100)
  | 1%nat, false => Q2Qc (44 # 100)
  | _, true => Q2Qc (65 # 100)
  | _, false => Q2Qc (35 # 100)
  end.

Definition MutationRate : Qc := Q2Qc (1 # 100).

(** The chance that a parent with [pg] copies passes an active allele. *)
Definition Pt (pg : nat) : Qc :=
  match pg with
  | 0%nat => MutationRate
  | 1%nat => Q2Qc (1 # 2)
  | _ => 1 - MutationRate
  end.

Definition Pnt (pg : nat) : Qc := 1 - Pt pg.

Definition P_child (mother_g father_g g : nat) : Qc :=
  match g with
  | 0%nat => Pnt mother_g * Pnt father_g
  | 1%nat => Pt mother_g * Pnt father_g + Pnt mother_g * Pt father_g
  | _ => Pt mother_g * Pt father_g
  end.

(** The gene count a hypothesis gives a person: 1 for the one-gene set,
    2 for the two-gene set, 0 for everybody else. *)
Definition gene_count (one_gene two_genes : pyset) (n : string) : nat :=
  if set_in n two_genes then 2
  else if set_in n one_gene then 1
  else 0.

Definition contribution (one_gene two_genes have_trait : pyset)
  (e : string * person) : Qc :=
  let g := gene_count one_gene two_genes (fst e) in
  let t := set_in (fst e) have_trait in
  match mother (snd e), father (snd e) with
  | Some m, Some f =>
      P_child (gene_count one_gene two_genes m)
              (gene_count one_gene two_genes f) g
      * TraitGivenGene g t
  | _, _ => GenePrior g * TraitGivenGene g t
  end.

Definition product (l : list Qc) : Qc := fold_right Qcmult 1 l.

End Spec.

(** The two gene sets of a hypothesis share no member. *)
Definition disjoint (a b : pyset) : Prop :=
  forall n, set_in n a = true -> set_in n b = true -> False.

(** The invariant of the data model on parent links: both absent, or both
    present and naming people of the pedigree. *)
Definition parents_ok (people : Dict.t person) : Prop :=
  forall e, In e people ->
    (mother (snd e) = None /\ father (snd e) = None) \/
    (exists m f, mother (snd e) = Some m /\ father (snd e) = Some f /\
                 In m (Dict.keys people) /\ In f (Dict.keys people)).

(** ** Example files *)

(** Three files the data model calls malformed: a child whose parents are
    not in the file, a child with a mother but no father, and a trait
    column holding neither 0, 1 nor blank. *)
Definition rows_dangling : list csv_row :=
  [mkRow "Harry" "Lily" "James" ""].

Definition rows_one_parent : list csv_row :=
  [mkRow "Lily" "" "" "0"; mkRow "Harry" "Lily" "" ""].

Definition rows_bad_trait : list csv_row :=
  [mkRow "Harry" "" "" "yes"].

(** A file in which the row of Harry comes twice, with another trait. *)
Definition rows_repeated : list csv_row :=
  [mkRow "Harry" "" "" "0"; mkRow "Lily" "" "" ""; mkRow "Harry" "" "" "1"].

(** ** The enumeration *)

(** Whatever order a set is walked in, it is walked once through. *)
Definition order_ok (order : pyset -> list string) : Prop :=
  forall s, Permutation (order s) s.

(** Whether the trait set [have_trait] contradicts what is known of
    [person]. *)
Definition violates (people : Dict.t person) (have_trait : pyset)
  (person : string) : bool :=
  match Dict.get people person with
  | Ok p => match trait p with
            | None => false
            | Some t => negb (Bool.eqb t (set_in person have_trait))
            end
  | Raise _ => false
  end.

(** A hypothesis: the one-gene set, the two-gene set and the trait set. *)
Definition hypothesis : Type := pyset * pyset * pyset.

(** The hypotheses the loop of [main] hands to [joint_probability], in the
    order in which it does. *)
Definition hypotheses (order : pyset -> list string) (people : Dict.t person)
  : list hypothesis :=
  let names := Dict.keys people in
  flat_map
    (fun have_trait =>
       if existsb (violates people have_trait) (order names) then []
       else
         flat_map
           (fun one_gene =>
              map (fun two_genes => (one_gene, two_genes, have_trait))
                  (powerset order (set_diff names one_gene)))
           (powerset order names))
    (powerset order names).

(** One round of the innermost loop body. *)
Definition step_hypothesis (people : Dict.t person)
  (probabilities : Dict.t marginals) (h : hypothesis)
  : result (Dict.t marginals) :=
  let '(one_gene, two_genes, have_trait) := h in
  step people one_gene two_genes have_trait probabilities.

(** The gene sets are disjoint sets of people, the trait set is a set of
    people and agrees with every observed trait. *)
Definition valid_hypothesis (people : Dict.t person) (h : hypothesis) : Prop :=
  let '(one_gene, two_genes, have_trait) := h in
  incl one_gene (Dict.keys people) /\
  incl two_genes (Dict.keys people) /\
  incl have_trait (Dict.keys people) /\
  disjoint one_gene two_genes /\
  forall person p t,
    Dict.get people person = Ok p -> trait p = Some t ->
    set_in person have_trait = t.

(** The family of the course's first data file: Harry, whose trait is
    unknown, and his parents James, who shows the trait, and Lily, who does
    not. *)
Definition family0_rows : list csv_row :=
  [mkRow "Harry" "Lily" "James" "";
   mkRow "James" "" "" "1";
   mkRow "Lily" "" "" "0"].

(** The same family, loaded. *)
Definition family0 : Dict.t person := load_data family0_rows.

(** ** Sums over the hypotheses *)

(** The sum of [f a] for [a] in [l]. *)
Definition qsum {A} (f : A -> Qc) (l : list A) : Qc :=
  fold_right (fun a s => f a + s) 0 l.

(** The sublists of a list, by the usual recursion. *)
Fixpoint subseqs {A} (l : list A) : list (list A) :=
  match l with
  | [] => [[]]
  | x :: l' => subseqs l' ++ map (cons x) (subseqs l')
  end.

(** [powerset] of a set walked in the order [l]. *)
Definition plist {A} (l : list A) : list (list A) :=
  flat_map (combinations l) (seq 0 (List.length l + 1)).

(** Two lists that hold the same names stand for the same set. *)
Definition set_eq (s s' : pyset) : Prop := forall x, set_in x s = set_in x s'.

(** [G] depends on the set only, not on the list that stands for it. *)
Definition respects (G : pyset -> Qc) : Prop :=
  forall s s', set_eq s s' -> G s = G s'.

(** The factor one person adds to the product in [joint_probability],
    each table lookup replaced by the value it returns. *)
Definition factor (h : hypothesis) (e : string * person) : Qc :=
  let '(one_gene, two_genes, have_trait) := h in
  let g := gene_number one_gene two_genes (fst e) in
  let t := set_in (fst e) have_trait in
  match mother (snd e), father (snd e) with
  | Some m, Some f =>
      inherit_prob (gene_number one_gene two_genes m)
                   (gene_number one_gene two_genes f) g
      * Spec.TraitGivenGene g t
  | _, _ => Spec.GenePrior g * Spec.TraitGivenGene g t
  end.

(** The product [joint_probability] returns when it returns. *)
Definition weight (people : Dict.t person) (h : hypothesis) : Qc :=
  Spec.product (map (factor h) people).

(** A person with a mother has a father too, and both are in the file. *)
Definition resolves (people : Dict.t person) (e : string * person) : bool :=
  match mother (snd e) with
  | None => true
  | Some m =>
      match father (snd e) with
      | Some f => Dict.mem people m && Dict.mem people f
      | None => false
      end
  end.

(** [q] when [b] holds, else zero. *)
Definition ind (b : bool) (q : Qc) : Qc := if b then q else 0.

(** The gene count and the trait a hypothesis gives a person, as
    [get_gene_numbers] and [name in have_trait] compute them. *)
Definition gene_of (h : hypothesis) (n : string) : nat :=
  gene_number (fst (fst h)) (snd (fst h)) n.

Definition trait_of (h : hypothesis) (n : string) : bool := set_in n (snd h).

(** The five buckets of person [n] once every hypothesis [h] of [hyps] has
    added its probability [w h]. *)
Definition tally (w : hypothesis -> Qc) (hyps : list hypothesis) (n : string)
  : marginals :=
  mkMarg
    (mkGene (qsum (fun h => ind (Nat.eqb (gene_of h n) 2) (w h)) hyps)
            (qsum (fun h => ind (Nat.eqb (gene_of h n) 1) (w h)) hyps)
            (qsum (fun h => ind (Nat.eqb (gene_of h n) 0) (w h)) hyps))
    (mkTrait (qsum (fun h => ind (trait_of h n) (w h)) hyps)
             (qsum (fun h => ind (negb (trait_of h n)) (w h)) hyps)).

(** Bucket by bucket sum. *)
Definition madd (a b : marginals) : marginals :=
  mkMarg (mkGene (gene2 (gene a) + gene2 (gene b))
                 (gene1 (gene a) + gene1 (gene b))
                 (gene0 (gene a) + gene0 (gene b)))
         (mkTrait (traitT (trait_d a) + traitT (trait_d b))
                  (traitF (trait_d a) + traitF (trait_d b))).

(** Two hypotheses made of the same three sets. *)
Definition hyp_eq (h h' : hypothesis) : Prop :=
  set_eq (fst (fst h)) (fst (fst h')) /\
  set_eq (snd (fst h)) (snd (fst h')) /\
  set_eq (snd h) (snd h').

(** [F] depends on the three sets only. *)
Definition respects_hyp (F : hypothesis -> Qc) : Prop :=
  forall h h', hyp_eq h h' -> F h = F h'.

(** The sum of [F] over every pair of a one-gene set and a two-gene set
    drawn from [l] and every trait set drawn from [l]. *)
Definition total_sum (l : pyset) (F : hypothesis -> Qc) : Qc :=
  qsum (fun ht =>
          qsum (fun og =>
                  qsum (fun tg => F (og, tg, ht)) (subseqs (set_diff l og)))
               (subseqs l))
       (subseqs l).

(** The trait set passes the evidence check of [main]. *)
Definition consistent (people : Dict.t person) (have_trait : pyset) : bool :=
  negb (existsb (violates people have_trait) (Dict.keys people)).

(** Whether the person is known to show the trait. *)
Definition shows_trait (people : Dict.t person) (n : string) : bool :=
  match Dict.get people n with
  | Ok p => match trait p with Some true => true | _ => false end
  | Raise _ => false
  end.

(** ** Summing one person out *)




(** The chance of [gz] copies for a person [p], given the gene counts
    that [h] gives the parents of [p]. *)
Definition gene_law (h : hypothesis) (p : person) (gz : nat) : Qc :=
  match mother p, father p with
  | Some m, Some f => inherit_prob (gene_of h m) (gene_of h f) gz
  | _, _ => Spec.GenePrior gz
  end.






(** The names of [names] that are not in [L]. *)
Definition others (names L : pyset) : pyset :=
  filter (fun n => negb (set_in n L)) names.




(** ** Notions used in the further properties *)

(** A set no larger than another. *)
Definition no_larger (a b : pyset) : Prop := (List.length a <= List.length b)%nat.

(** The parent links of the entry cannot be followed: there is a mother,
    and she or the father is not a person of the file, or there is no
    father. *)
Definition dangling (people : Dict.t person) (e : string * person) : Prop :=
  exists m, mother (snd e) = Some m /\
    (~ In m (Dict.keys people) \/
     father (snd e) = None \/
     exists f, father (snd e) = Some f /\ ~ In f (Dict.keys people)).




(** The trait mapping that is sure of [t]. *)
Definition certain (t : bool) : trait_dist :=
  if t then mkTrait 1 0 else mkTrait 0 1.











(** [n] people without parents and without evidence, named "0", "1", ... *)
Definition founders (n : nat) : Dict.t person :=
  map (fun i => let name := DecimalString.NilEmpty.string_of_uint (Nat.to_uint i) in
                (name, mkPerson name None None None))
      (seq 0 n).

(** * Properties *)

(** ** The error monad *)

Lemma mapM_Ok_map {A B} (f : A -> result B) (g : A -> B) (l : list A) :
  (forall a, In a l -> f a = Ok (g a)) -> mapM f l = Ok (map g l).
Proof.
  induction l as [|a l IH]; intros H; simpl; [reflexivity|].
  rewrite (H a (or_introl eq_refl)); simpl.
  rewrite IH by (intros; apply H; right; assumption). reflexivity.
Qed.

Lemma mapM_Raise {A B} (f : A -> result B) (e : string) (l : list A) :
  (forall a e', In a l -> f a = Raise e' -> e' = e) ->
  (exists a, In a l /\ f a = Raise e) ->
  mapM f l = Raise e.
Proof.
  induction l as [|a l IH]; intros Hall [x [Hin Hx]]; [destruct Hin|].
  simpl. destruct (f a) as [b|e'] eqn:Ha; simpl.
  - destruct Hin as [->|Hin]; [congruence|].
    rewrite IH; [reflexivity| |exists x; split; assumption].
    intros a0 e0 Hin0; apply Hall; right; assumption.
  - f_equal. apply (Hall a); [left; reflexivity|assumption].
Qed.

(** ** Rational arithmetic helpers *)

Lemma one_half_double : one_half + one_half = 1.
Proof. apply Qc_is_canon; reflexivity. Qed.

Lemma one_half_compl : one_half = 1 - one_half.
Proof. apply Qc_is_canon; reflexivity. Qed.

(** ** [parent_giving] *)


(** C9. With the mutation probability 0.01, a child of one parent with no
    copy and one parent with two copies has no copy with probability
    0.0099, two copies with probability 0.0099 and one copy with
    probability 0.9802, whichever parent is which; the three add up to
    exactly 1.  These are the numbers [joint_probability] multiplies in:
    with Lily at no copy and James at two, the factor of their son Harry
    at one copy is 0.9802 times the chance 0.44 of no trait. *)
Theorem inherit_prob_0_2 :
  PROBS_mutation = Q2Qc (1 # 100) /\
  inherit_prob 0 2 0 = Q2Qc (99 # 10000) /\
  inherit_prob 0 2 2 = Q2Qc (99 # 10000) /\
  inherit_prob 0 2 1 = Q2Qc (9802 # 10000) /\
  inherit_prob 2 0 0 = Q2Qc (99 # 10000) /\
  inherit_prob 2 0 2 = Q2Qc (99 # 10000) /\
  inherit_prob 2 0 1 = Q2Qc (9802 # 10000) /\
  inherit_prob 0 2 0 + inherit_prob 0 2 1 + inherit_prob 0 2 2 = 1 /\
  inherit_prob 2 0 0 + inherit_prob 2 0 1 + inherit_prob 2 0 2 = 1 /\
  child_prob (get_gene_numbers family0 ["Harry"] ["James"]) []
             ("Harry", mkPerson "Harry" (Some "Lily") (Some "James") None)
  = Ok (inherit_prob 0 2 1 * Q2Qc (44 # 100)).
Proof.
  repeat split; try (apply Qc_is_canon; reflexivity).
Qed.

(** ** [normalize] *)

Lemma py_div_Ok (x y : Qc) : y <> 0 -> py_div x y = Ok (x / y).
Proof. intros H. unfold py_div. destruct (Qc_eq_dec y 0); [contradiction|reflexivity]. Qed.

Lemma py_div_zero (x : Qc) : py_div x 0 = Raise "ZeroDivisionError".
Proof. unfold py_div. destruct (Qc_eq_dec 0 0); [reflexivity|congruence]. Qed.

Lemma normalize_one_Ok (m : marginals) :
  gene_total (gene m) <> 0 -> trait_total (trait_d m) <> 0 ->
  normalize_one m = Ok (normalized m).
Proof.
  intros Hg Ht. unfold normalize_one.
  rewrite !(py_div_Ok _ _ Hg), !(py_div_Ok _ _ Ht). reflexivity.
Qed.

Lemma normalize_one_zero (m : marginals) :
  gene_total (gene m) = 0 \/ trait_total (trait_d m) = 0 ->
  normalize_one m = Raise "ZeroDivisionError".
Proof.
  intros H. unfold normalize_one.
  destruct (Qc_eq_dec (gene_total (gene m)) 0) as [Hg|Hg].
  - rewrite Hg, py_div_zero. reflexivity.
  - destruct H as [H|H]; [contradiction|].
    rewrite !(py_div_Ok _ _ Hg), H, py_div_zero. reflexivity.
Qed.

Lemma normalize_one_Raise (m : marginals) (e : string) :
  normalize_one m = Raise e -> e = "ZeroDivisionError".
Proof.
  intros H.
  destruct (Qc_eq_dec (gene_total (gene m)) 0) as [Hg|Hg].
  - rewrite normalize_one_zero in H by (left; assumption). congruence.
  - destruct (Qc_eq_dec (trait_total (trait_d m)) 0) as [Ht|Ht].
    + rewrite normalize_one_zero in H by (right; assumption). congruence.
    + rewrite normalize_one_Ok in H by assumption. discriminate.
Qed.

Lemma gene_total_eq (d : gene_dist) : gene_total d = gene2 d + gene1 d + gene0 d.
Proof. unfold gene_total. ring. Qed.

Lemma trait_total_eq (d : trait_dist) : trait_total d = traitT d + traitF d.
Proof. unfold trait_total. ring. Qed.

Lemma normalized_gene_total (m : marginals) :
  gene_total (gene m) <> 0 -> gene_total (gene (normalized m)) = 1.
Proof.
  intros H. rewrite gene_total_eq in H.
  unfold normalized, gene_total. simpl. field. exact H.
Qed.

Lemma normalized_trait_total (m : marginals) :
  trait_total (trait_d m) <> 0 -> trait_total (trait_d (normalized m)) = 1.
Proof.
  intros H. rewrite trait_total_eq in H.
  unfold normalized, trait_total. simpl. field. exact H.
Qed.

Lemma normalize_Raise_zero (probabilities : Dict.t marginals) (person : string)
  (m : marginals) :
  In (person, m) probabilities ->
  gene_total (gene m) = 0 \/ trait_total (trait_d m) = 0 ->
  normalize probabilities = Raise "ZeroDivisionError".
Proof.
  intros Hin Hz. unfold normalize.
  apply mapM_Raise.
  - intros a e' _ Ha.
    destruct (normalize_one (snd a)) as [m'|e0] eqn:Hn; simpl in Ha; [discriminate|].
    apply normalize_one_Raise in Hn. congruence.
  - exists (person, m). split; [assumption|]. simpl.
    rewrite normalize_one_zero by assumption. reflexivity.
Qed.

(** C5, as the specification words it, fails: on a zero total the code
    raises Python's own [ZeroDivisionError]; no other exception class is
    involved. *)
Lemma normalize_untouched_not_indeterminate :
  gene_total (gene zero_marginals) = 0 /\
  normalize untouched = Raise "ZeroDivisionError" /\
  normalize untouched <> Raise "IndeterminateEvidenceError".
Proof.
  assert (Hz : gene_total (gene zero_marginals) = 0)
    by (apply Qc_is_canon; reflexivity).
  split; [exact Hz|].
  assert (H : normalize untouched = Raise "ZeroDivisionError").
  { apply (normalize_Raise_zero untouched "Harry" zero_marginals).
    - left; reflexivity.
    - left; exact Hz. }
  split; [exact H|]. rewrite H. discriminate.
Qed.

(** C5 (amended). Whenever some person's gene mapping or trait mapping sums
    to zero, [normalize] raises [ZeroDivisionError]: the division by zero
    is an exception, never a silent NaN or infinity. *)
Theorem normalize_zero_total (probabilities : Dict.t marginals) :
  (exists person m, In (person, m) probabilities /\
     (gene_total (gene m) = 0 \/ trait_total (trait_d m) = 0)) ->
  normalize probabilities = Raise "ZeroDivisionError".
Proof.
  intros [person [m [Hin Hz]]].
  exact (normalize_Raise_zero probabilities person m Hin Hz).
Qed.

Lemma normalize_zero_total_witness :
  normalize untouched = Raise "ZeroDivisionError".
Proof.
  apply normalize_zero_total.
  exists "Harry", zero_marginals. split.
  - left. reflexivity.
  - left. apply Qc_is_canon; reflexivity.
Defined.

(** C7. On an accumulator whose totals are all nonzero, [normalize]
    returns; every person keeps its place and name, each of its two
    mappings then sums to exactly 1, and each entry is the old entry divided
    by the old total of its mapping, so proportions are kept. *)
Theorem normalize_sums_to_one (probabilities : Dict.t marginals) :
  Forall (fun e => gene_total (gene (snd e)) <> 0 /\
                   trait_total (trait_d (snd e)) <> 0) probabilities ->
  exists probabilities',
    normalize probabilities = Ok probabilities' /\
    Forall2 (fun e e' =>
               let m := snd e in
               let m' := snd e' in
               fst e' = fst e /\
               gene_total (gene m') = 1 /\
               trait_total (trait_d m') = 1 /\
               gene2 (gene m') = gene2 (gene m) / gene_total (gene m) /\
               gene1 (gene m') = gene1 (gene m) / gene_total (gene m) /\
               gene0 (gene m') = gene0 (gene m) / gene_total (gene m) /\
               traitT (trait_d m') = traitT (trait_d m) / trait_total (trait_d m) /\
               traitF (trait_d m') = traitF (trait_d m) / trait_total (trait_d m))
            probabilities probabilities'.
Proof.
  intros H.
  exists (map (fun e => (fst e, normalized (snd e))) probabilities). split.
  - unfold normalize. apply mapM_Ok_map.
    intros a Ha. rewrite Forall_forall in H. destruct (H a Ha) as [Hg Ht].
    rewrite normalize_one_Ok by assumption. reflexivity.
  - induction H as [|e l [Hg Ht] _ IH]; simpl; constructor; [|exact IH].
    simpl. repeat split.
    + apply normalized_gene_total; assumption.
    + apply normalized_trait_total; assumption.
Qed.

Lemma normalize_sums_to_one_witness :
  exists probabilities',
    normalize quarter = Ok probabilities' /\
    Forall2 (fun e e' =>
               let m := snd e in
               let m' := snd e' in
               fst e' = fst e /\
               gene_total (gene m') = 1 /\
               trait_total (trait_d m') = 1 /\
               gene2 (gene m') = gene2 (gene m) / gene_total (gene m) /\
               gene1 (gene m') = gene1 (gene m) / gene_total (gene m) /\
               gene0 (gene m') = gene0 (gene m) / gene_total (gene m) /\
               traitT (trait_d m') = traitT (trait_d m) / trait_total (trait_d m) /\
               traitF (trait_d m') = traitF (trait_d m) / trait_total (trait_d m))
            quarter probabilities'.
Proof.
  apply (normalize_sums_to_one quarter).
  repeat constructor; simpl; intros H; apply (f_equal this) in H; discriminate.
Defined.

(** ** [get_gene_numbers] and [update] *)

Lemma gene_number_le_2 (one_gene two_genes : pyset) (n : string) :
  (gene_number one_gene two_genes n <= 2)%nat.
Proof.
  unfold gene_number.
  destruct (set_in n one_gene); [lia|]. destruct (set_in n two_genes); lia.
Qed.

Lemma get_gene_numbers_get {V} (people : Dict.t V) (one_gene two_genes : pyset)
  (n : string) :
  In n (Dict.keys people) ->
  Dict.get (get_gene_numbers people one_gene two_genes) n
  = Ok (gene_number one_gene two_genes n).
Proof.
  induction people as [|[k v] people IH]; intros Hin; [destruct Hin|].
  simpl. destruct (String.eqb n k) eqn:E.
  - apply String.eqb_eq in E. subst. reflexivity.
  - destruct Hin as [Hk|Hin].
    + simpl in Hk. subst. rewrite String.eqb_refl in E. discriminate.
    + apply IH. exact Hin.
Qed.

Lemma get_gene_numbers_missing {V} (people : Dict.t V) (one_gene two_genes : pyset)
  (n : string) :
  ~ In n (Dict.keys people) ->
  Dict.get (get_gene_numbers people one_gene two_genes) n = Raise "KeyError".
Proof.
  induction people as [|[k v] people IH]; intros Hin; [reflexivity|].
  simpl. destruct (String.eqb n k) eqn:E.
  - apply String.eqb_eq in E. subst. exfalso. apply Hin. left. reflexivity.
  - apply IH. intros H. apply Hin. right. exact H.
Qed.

Lemma update_Ok (probabilities : Dict.t marginals)
  (one_gene two_genes have_trait : pyset) (p : Qc) :
  update probabilities one_gene two_genes have_trait p
  = Ok (bump_all one_gene two_genes have_trait p probabilities).
Proof.
  unfold update, bump_all. apply mapM_Ok_map.
  intros [n m] Hin. simpl.
  rewrite get_gene_numbers_get by (apply (in_map fst) in Hin; exact Hin).
  simpl. unfold bump.
  pose proof (gene_number_le_2 one_gene two_genes n) as Hle.
  destruct (gene_number one_gene two_genes n) as [|[|[|g]]]; try reflexivity; lia.
Qed.








(** ** [joint_probability] *)

Lemma gene_number_count (one_gene two_genes : pyset) (n : string) :
  disjoint one_gene two_genes ->
  gene_number one_gene two_genes n = Spec.gene_count one_gene two_genes n.
Proof.
  intros D. unfold gene_number, Spec.gene_count.
  destruct (set_in n one_gene) eqn:E1, (set_in n two_genes) eqn:E2;
    try reflexivity.
  exfalso. exact (D n E1 E2).
Qed.

Lemma parent_giving_Pt (pg : nat) : parent_giving pg true = Spec.Pt pg.
Proof. destruct pg as [|[|pg]]; reflexivity. Qed.

Lemma parent_giving_Pnt (pg : nat) : parent_giving pg false = Spec.Pnt pg.
Proof.
  unfold Spec.Pnt. rewrite <- parent_giving_Pt.
  destruct pg as [|[|pg]]; simpl; [reflexivity|exact one_half_compl|ring].
Qed.

Lemma inherit_prob_P_child (mg fg g : nat) :
  inherit_prob mg fg g = Spec.P_child mg fg g.
Proof.
  unfold inherit_prob, Spec.P_child.
  rewrite !parent_giving_Pt, !parent_giving_Pnt.
  destruct g as [|[|g]]; ring.
Qed.

Lemma PROBS_gene_prior (g : nat) :
  (g <= 2)%nat -> PROBS_gene g = Ok (Spec.GenePrior g).
Proof. destruct g as [|[|[|g]]]; intros H; try reflexivity; lia. Qed.

Lemma PROBS_trait_given (g : nat) (t : bool) :
  (g <= 2)%nat -> PROBS_trait g t = Ok (Spec.TraitGivenGene g t).
Proof. destruct g as [|[|[|g]]], t; intros H; try reflexivity; lia. Qed.

Lemma fold_left_mul (l : list Qc) (x : Qc) :
  fold_left Qcmult l x = x * Spec.product l.
Proof.
  revert x. induction l as [|y l IH]; intros x; simpl.
  - ring.
  - rewrite IH. ring.
Qed.

Lemma reduce_mul_product (l : list Qc) :
  l <> [] -> reduce_mul l = Ok (Spec.product l).
Proof.
  destruct l as [|x l]; intros H; [congruence|].
  simpl. rewrite fold_left_mul. reflexivity.
Qed.

Lemma product_cons (x : Qc) (l : list Qc) :
  Spec.product (x :: l) = x * Spec.product l.
Proof. reflexivity. Qed.

Lemma product_app (l1 l2 : list Qc) :
  Spec.product (l1 ++ l2) = Spec.product l1 * Spec.product l2.
Proof.
  induction l1 as [|x l1 IH]; simpl; [ring|]. rewrite IH. ring.
Qed.

Lemma product_partition {A} (f : A -> Qc) (b : A -> bool) (l : list A) :
  Spec.product (map f (filter b l))
  * Spec.product (map f (filter (fun a => negb (b a)) l))
  = Spec.product (map f l).
Proof.
  induction l as [|a l IH]; simpl; [ring|].
  destruct (b a); simpl; rewrite <- IH; ring.
Qed.

Lemma root_prob_contribution (people : Dict.t person)
  (one_gene two_genes have_trait : pyset) (e : string * person) :
  disjoint one_gene two_genes ->
  In e people -> is_None (mother (snd e)) = true ->
  root_prob (get_gene_numbers people one_gene two_genes) have_trait e
  = Ok (Spec.contribution one_gene two_genes have_trait e).
Proof.
  intros D Hin Hm. unfold root_prob, Spec.contribution.
  rewrite get_gene_numbers_get by (apply in_map; exact Hin).
  cbn [bind].
  pose proof (gene_number_le_2 one_gene two_genes (fst e)) as Hle.
  rewrite PROBS_gene_prior, PROBS_trait_given by exact Hle. cbn [bind].
  rewrite gene_number_count by exact D.
  destruct (mother (snd e)); [discriminate|]. reflexivity.
Qed.

Lemma child_prob_contribution (people : Dict.t person)
  (one_gene two_genes have_trait : pyset) (e : string * person) :
  disjoint one_gene two_genes -> parents_ok people ->
  In e people -> is_None (mother (snd e)) = false ->
  child_prob (get_gene_numbers people one_gene two_genes) have_trait e
  = Ok (Spec.contribution one_gene two_genes have_trait e).
Proof.
  intros D Hok Hin Hm. unfold child_prob, Spec.contribution.
  destruct (Hok e Hin) as [[Hmo _]|[m [f [Hmo [Hfa [Hm_in Hf_in]]]]]].
  - rewrite Hmo in Hm. discriminate.
  - rewrite Hmo, Hfa. cbn [get_opt].
    rewrite !get_gene_numbers_get by (try assumption; apply in_map; exact Hin).
    cbn [bind].
    pose proof (gene_number_le_2 one_gene two_genes (fst e)) as Hle.
    rewrite PROBS_trait_given by exact Hle. cbn [bind].
    rewrite inherit_prob_P_child, !gene_number_count by exact D.
    reflexivity.
Qed.

(** On every pedigree with at least one person, [joint_probability]
    returns the product of the contributions of all its people. *)
Lemma joint_probability_product (people : Dict.t person)
  (one_gene two_genes have_trait : pyset) :
  parents_ok people -> people <> [] ->
  disjoint one_gene two_genes ->
  joint_probability people one_gene two_genes have_trait
  = Ok (Spec.product
          (map (Spec.contribution one_gene two_genes have_trait) people)).
Proof.
  intros Hok Hne D. unfold joint_probability.
  rewrite (mapM_Ok_map _ (Spec.contribution one_gene two_genes have_trait)).
  2:{ intros e He. apply filter_In in He. destruct He as [Hin Hm].
      apply root_prob_contribution; assumption. }
  cbn [bind].
  rewrite (mapM_Ok_map _ (Spec.contribution one_gene two_genes have_trait)).
  2:{ intros e He. apply filter_In in He. destruct He as [Hin Hm].
      apply child_prob_contribution; try assumption.
      apply negb_true_iff in Hm. exact Hm. }
  cbn [bind].
  rewrite reduce_mul_product.
  - rewrite product_app, product_partition. reflexivity.
  - destruct people as [|e people]; [congruence|].
    intros H. apply app_eq_nil in H. destruct H as [H1 H2]. simpl in H1, H2.
    destruct (is_None (mother (snd e))); simpl in H1, H2; discriminate.
Qed.

(** C1. The pedigree may be empty: a file holding only its header line
    loads as the empty dictionary.  There the product of the contributions
    is the empty product, 1, but [reduce] is called without an initial
    value and raises [TypeError]; so does the whole run. *)
Theorem joint_probability_empty_pedigree :
  load_data [] = [] /\
  parents_ok [] /\ disjoint [] [] /\
  Spec.product (map (Spec.contribution [] [] []) (load_data [])) = 1 /\
  joint_probability (load_data []) [] [] [] = Raise "TypeError" /\
  main (fun s => s) [] = Raise "TypeError".
Proof.
  repeat split.
  - intros e [].
  - intros n H; discriminate.
Qed.

(** ** [load_data] *)

Lemma get_set_same {V} (d : Dict.t V) (k : string) (v : V) :
  Dict.get (Dict.set d k v) k = Ok v.
Proof.
  induction d as [|[k' v'] d IH]; simpl.
  - rewrite String.eqb_refl. reflexivity.
  - destruct (String.eqb k k') eqn:E; simpl; rewrite E; [reflexivity|exact IH].
Qed.

Lemma get_set_other {V} (d : Dict.t V) (k k' : string) (v : V) :
  k <> k' -> Dict.get (Dict.set d k' v) k = Dict.get d k.
Proof.
  intros Hne. induction d as [|[k0 v0] d IH]; simpl.
  - apply String.eqb_neq in Hne. rewrite Hne. reflexivity.
  - destruct (String.eqb k' k0) eqn:E; simpl.
    + apply String.eqb_eq in E. subst k0.
      apply String.eqb_neq in Hne. rewrite Hne. reflexivity.
    + rewrite IH. reflexivity.
Qed.

Lemma set_keys_In {V} (d : Dict.t V) (k k' : string) (v : V) :
  In k (Dict.keys (Dict.set d k' v)) <-> k = k' \/ In k (Dict.keys d).
Proof.
  induction d as [|[k0 v0] d IH]; simpl.
  - intuition.
  - destruct (String.eqb k' k0) eqn:E; simpl.
    + apply String.eqb_eq in E. subst k0. intuition.
    + rewrite IH. intuition.
Qed.

Lemma set_wf {V} (d : Dict.t V) (k : string) (v : V) :
  Dict.wf d -> Dict.wf (Dict.set d k v).
Proof.
  unfold Dict.wf. induction d as [|[k0 v0] d IH]; simpl; intros H.
  - constructor; [intros []|constructor].
  - inversion H as [|? ? Hnot Hd]; subst.
    destruct (String.eqb k k0) eqn:E; simpl.
    + constructor; assumption.
    + constructor; [|apply IH; exact Hd].
      intros Hin. apply (set_keys_In d k0 k v) in Hin. destruct Hin as [->|Hin].
      * rewrite String.eqb_refl in E. discriminate.
      * contradiction.
Qed.

Lemma load_data_snoc (rows : list csv_row) (r : csv_row) :
  load_data (rows ++ [r])
  = Dict.set (load_data rows) (row_name r) (person_of_row r).
Proof. unfold load_data. rewrite fold_left_app. reflexivity. Qed.

Lemma load_data_wf (rows : list csv_row) : Dict.wf (load_data rows).
Proof.
  induction rows as [|r rows IH] using rev_ind.
  - constructor.
  - rewrite load_data_snoc. apply set_wf. exact IH.
Qed.

Lemma load_data_last_wins (A B : list csv_row) (r : csv_row) :
  (forall r', In r' B -> row_name r' <> row_name r) ->
  Dict.get (load_data (A ++ r :: B)) (row_name r) = Ok (person_of_row r).
Proof.
  induction B as [|b B IH] using rev_ind; intros H.
  - rewrite load_data_snoc. apply get_set_same.
  - replace (A ++ r :: B ++ [b]) with ((A ++ r :: B) ++ [b])
      by (rewrite <- app_assoc; reflexivity).
    rewrite load_data_snoc, get_set_other.
    + apply IH. intros r' Hr'. apply H. apply in_or_app. left. exact Hr'.
    + apply not_eq_sym. apply H. apply in_or_app. right. left. reflexivity.
Qed.

Lemma last_row_of_name (rows : list csv_row) (r : csv_row) :
  In r rows ->
  exists A r' B,
    rows = A ++ r' :: B /\ row_name r' = row_name r /\
    forall r'', In r'' B -> row_name r'' <> row_name r.
Proof.
  induction rows as [|r0 rows IH] using rev_ind; intros Hin; [destruct Hin|].
  destruct (string_dec (row_name r0) (row_name r)) as [E|E].
  - exists rows, r0, []. split; [reflexivity|]. split; [exact E|].
    intros r'' [].
  - apply in_app_or in Hin. destruct Hin as [Hin|[->|[]]]; [|congruence].
    destruct (IH Hin) as [A [r' [B [-> [Hn Hlast]]]]].
    exists A, r', (B ++ [r0]). split; [rewrite <- app_assoc; reflexivity|].
    split; [exact Hn|].
    intros r'' Hr''. apply in_app_or in Hr''.
    destruct Hr'' as [Hr''|[<-|[]]]; [apply Hlast; exact Hr''|exact E].
Qed.

(** C6, as the specification words it, fails: [load_data] accepts each of
    the three files.  The first two make the later inference raise
    [KeyError]; the third is read as an unobserved trait and the whole run
    returns. *)
Lemma load_data_accepts_malformed :
  load_data rows_dangling
    = [("Harry", mkPerson "Harry" (Some "Lily") (Some "James") None)] /\
  main (fun s => s) rows_dangling = Raise "KeyError" /\
  load_data rows_one_parent
    = [("Lily", mkPerson "Lily" None None (Some false));
       ("Harry", mkPerson "Harry" (Some "Lily") None None)] /\
  main (fun s => s) rows_one_parent = Raise "KeyError" /\
  load_data rows_bad_trait = [("Harry", mkPerson "Harry" None None None)] /\
  (exists probabilities, main (fun s => s) rows_bad_trait = Ok probabilities) /\
  (forall rows, In rows [rows_dangling; rows_one_parent; rows_bad_trait] ->
     main (fun s => s) rows <> Raise "MalformedPedigreeError").
Proof.
  assert (H1 : main (fun s => s) rows_dangling = Raise "KeyError")
    by (vm_compute; reflexivity).
  assert (H2 : main (fun s => s) rows_one_parent = Raise "KeyError")
    by (vm_compute; reflexivity).
  assert (H3 : exists probabilities,
             main (fun s => s) rows_bad_trait = Ok probabilities)
    by (eexists; vm_compute; reflexivity).
  repeat split; try assumption.
  intros rows [<-|[<-|[<-|[]]]].
  - rewrite H1; discriminate.
  - rewrite H2; discriminate.
  - destruct H3 as [p H3]. rewrite H3; discriminate.
Qed.

(** C6 (amended). [load_data] checks nothing and never fails: every row of
    the file is stored under its name, the last row of a name winning, with
    a blank parent field read as no parent, the trait "1" as true, "0" as
    false and any other text as unknown.  What is stored under the name of
    a row is read off the last row [r'] of the file bearing that name. *)
Theorem load_data_stores_every_row (rows : list csv_row) (r : csv_row) :
  In r rows ->
  exists A r' B,
    rows = A ++ r' :: B /\ row_name r' = row_name r /\
    (forall r'', In r'' B -> row_name r'' <> row_name r) /\
    Dict.get (load_data rows) (row_name r)
    = Ok {| name := row_name r';
            mother := if String.eqb (row_mother r') "" then None
                      else Some (row_mother r');
            father := if String.eqb (row_father r') "" then None
                      else Some (row_father r');
            trait := if String.eqb (row_trait r') "1" then Some true
                     else if String.eqb (row_trait r') "0" then Some false
                     else None |}.
Proof.
  intros Hin. destruct (last_row_of_name rows r Hin) as [A [r' [B [E [Hn Hlast]]]]].
  exists A, r', B. repeat split; try assumption.
  rewrite E, <- Hn. apply load_data_last_wins.
  intros r'' Hr''. rewrite Hn. apply Hlast. exact Hr''.
Qed.

Lemma load_data_stores_every_row_witness :
  exists A r' B,
    rows_repeated = A ++ r' :: B /\ row_name r' = "Harry" /\
    (forall r'', In r'' B -> row_name r'' <> "Harry") /\
    Dict.get (load_data rows_repeated) "Harry"
    = Ok {| name := row_name r';
            mother := if String.eqb (row_mother r') "" then None
                      else Some (row_mother r');
            father := if String.eqb (row_father r') "" then None
                      else Some (row_father r');
            trait := if String.eqb (row_trait r') "1" then Some true
                     else if String.eqb (row_trait r') "0" then Some false
                     else None |}.
Proof.
  apply (load_data_stores_every_row rows_repeated (mkRow "Harry" "" "" "0")).
  left. reflexivity.
Defined.

(** ** Sets and [powerset] *)

Lemma set_in_In (x : string) (s : pyset) : set_in x s = true <-> In x s.
Proof.
  unfold set_in. rewrite existsb_exists. split.
  - intros [y [Hy E]]. apply String.eqb_eq in E. subst. exact Hy.
  - intros H. exists x. split; [exact H|apply String.eqb_refl].
Qed.

Lemma set_in_false (x : string) (s : pyset) : set_in x s = false <-> ~ In x s.
Proof.
  rewrite <- set_in_In. destruct (set_in x s); split; congruence.
Qed.

Lemma combinations_incl {A} (s : list A) :
  forall r c, In c (combinations s r) -> incl c s.
Proof.
  induction s as [|x s IH]; intros [|r] c Hin; simpl in Hin.
  - destruct Hin as [<-|[]]. intros y [].
  - destruct Hin.
  - destruct Hin as [<-|[]]. intros y [].
  - apply in_app_or in Hin. destruct Hin as [Hin|Hin].
    + apply in_map_iff in Hin. destruct Hin as [c' [<- Hc']].
      intros y [<-|Hy]; [left; reflexivity|right; exact (IH r c' Hc' y Hy)].
    + intros y Hy. right. exact (IH (S r) c Hin y Hy).
Qed.

Lemma powerset_incl (order : pyset -> list string) (s c : pyset) :
  order_ok order -> In c (powerset order s) -> incl c s.
Proof.
  intros Hord Hin. unfold powerset in Hin.
  apply in_flat_map in Hin. destruct Hin as [r [_ Hc]].
  intros y Hy. apply (Permutation_in y (Hord s)).
  exact (combinations_incl _ _ _ Hc y Hy).
Qed.

Lemma set_diff_In (a b : pyset) (x : string) :
  In x (set_diff a b) <-> In x a /\ ~ In x b.
Proof.
  unfold set_diff. rewrite filter_In, negb_true_iff, set_in_false. reflexivity.
Qed.

(** ** The enumeration loop *)

Lemma foldM_app {A S} (f : S -> A -> result S) (l1 l2 : list A) (s : S) :
  foldM f (l1 ++ l2) s = (s' <- foldM f l1 s ;; foldM f l2 s').
Proof.
  revert s. induction l1 as [|a l1 IH]; intros s; simpl; [reflexivity|].
  destruct (f s a) as [s'|e]; simpl; [apply IH|reflexivity].
Qed.

Lemma foldM_flat_map {A B S} (f : S -> B -> result S) (g : A -> list B)
  (l : list A) (s : S) :
  foldM f (flat_map g l) s = foldM (fun s a => foldM f (g a) s) l s.
Proof.
  revert s. induction l as [|a l IH]; intros s; simpl; [reflexivity|].
  rewrite foldM_app. destruct (foldM f (g a) s) as [s'|e]; simpl;
    [apply IH|reflexivity].
Qed.

Lemma foldM_map {A B S} (f : S -> B -> result S) (h : A -> B)
  (l : list A) (s : S) :
  foldM f (map h l) s = foldM (fun s a => f s (h a)) l s.
Proof.
  revert s. induction l as [|a l IH]; intros s; simpl; [reflexivity|].
  destruct (f s (h a)) as [s'|e]; simpl; [apply IH|reflexivity].
Qed.

Lemma foldM_ext {A S} (f g : S -> A -> result S) (l : list A) (s : S) :
  (forall s a, In a l -> f s a = g s a) -> foldM f l s = foldM g l s.
Proof.
  revert s. induction l as [|a l IH]; intros s H; simpl; [reflexivity|].
  rewrite (H s a (or_introl eq_refl)).
  destruct (g s a) as [s'|e]; simpl; [|reflexivity].
  apply IH. intros s0 a0 H0. apply H. right. exact H0.
Qed.

Lemma get_In_keys {V} (d : Dict.t V) (k : string) :
  In k (Dict.keys d) -> exists v, Dict.get d k = Ok v /\ In (k, v) d.
Proof.
  induction d as [|[k' v'] d IH]; intros Hin; [destruct Hin|].
  simpl. destruct (String.eqb k k') eqn:E.
  - apply String.eqb_eq in E. subst. exists v'. split; [reflexivity|left; reflexivity].
  - destruct Hin as [Hk|Hin].
    + simpl in Hk. subst. rewrite String.eqb_refl in E. discriminate.
    + destruct (IH Hin) as [v [Hg Hv]]. exists v. split; [exact Hg|right; exact Hv].
Qed.

Lemma get_Ok_In {V} (d : Dict.t V) (k : string) (v : V) :
  Dict.get d k = Ok v -> In (k, v) d.
Proof.
  induction d as [|[k' v'] d IH]; simpl; intros H; [discriminate|].
  destruct (String.eqb k k') eqn:E.
  - apply String.eqb_eq in E. inversion H; subst. left; reflexivity.
  - right. exact (IH H).
Qed.

Lemma fails_evidence_existsb (order : pyset -> list string)
  (people : Dict.t person) (names have_trait : pyset) :
  incl (order names) (Dict.keys people) ->
  fails_evidence order people names have_trait
  = Ok (existsb (violates people have_trait) (order names)).
Proof.
  unfold fails_evidence. generalize (order names) as l.
  assert (Htrue : forall l : list string,
            foldM (fun (found : bool) person =>
                     if found then Ok true else
                     p <- Dict.get people person ;;
                     Ok (match trait p with
                         | None => false
                         | Some t => negb (Bool.eqb t (set_in person have_trait))
                         end)) l true = Ok true).
  { induction l as [|a l IH]; simpl; [reflexivity|exact IH]. }
  induction l as [|a l IH]; intros Hincl; simpl; [reflexivity|].
  destruct (get_In_keys people a (Hincl a (or_introl eq_refl))) as [p [Hg _]].
  unfold violates at 1. rewrite Hg. simpl.
  destruct (trait p) as [t|]; simpl.
  - destruct (negb (Bool.eqb t (set_in a have_trait))); simpl.
    + apply Htrue.
    + apply IH. intros y Hy. apply Hincl. right. exact Hy.
  - apply IH. intros y Hy. apply Hincl. right. exact Hy.
Qed.

Lemma enumerate_hypotheses (order : pyset -> list string)
  (people : Dict.t person) :
  order_ok order ->
  enumerate order people
  = foldM (step_hypothesis people) (hypotheses order people)
          (init_probabilities people).
Proof.
  intros Hord. unfold enumerate, hypotheses.
  rewrite foldM_flat_map. apply foldM_ext.
  intros acc ht _.
  rewrite fails_evidence_existsb
    by (intros y Hy; exact (Permutation_in y (Hord _) Hy)).
  cbn [bind].
  destruct (existsb (violates people ht) (order (Dict.keys people)));
    [reflexivity|].
  rewrite foldM_flat_map. apply foldM_ext.
  intros acc' og _. rewrite foldM_map. reflexivity.
Qed.

Lemma hypotheses_valid (order : pyset -> list string)
  (people : Dict.t person) (h : hypothesis) :
  order_ok order -> In h (hypotheses order people) -> valid_hypothesis people h.
Proof.
  intros Hord Hin. unfold hypotheses in Hin.
  apply in_flat_map in Hin. destruct Hin as [ht [Hht Hin]].
  destruct (existsb (violates people ht) (order (Dict.keys people))) eqn:Ev;
    [destruct Hin|].
  apply in_flat_map in Hin. destruct Hin as [og [Hog Hin]].
  apply in_map_iff in Hin. destruct Hin as [tg [<- Htg]].
  pose proof (powerset_incl order _ _ Hord Hht) as Iht.
  pose proof (powerset_incl order _ _ Hord Hog) as Iog.
  pose proof (powerset_incl order _ _ Hord Htg) as Itg.
  unfold valid_hypothesis. repeat split; try assumption.
  - intros y Hy. apply Itg in Hy. apply set_diff_In in Hy. tauto.
  - intros n H1 H2. apply set_in_In in H1, H2.
    apply Itg in H2. apply set_diff_In in H2. tauto.
  - intros person p t Hg Ht.
    assert (Hk : In person (order (Dict.keys people))).
    { apply (Permutation_in person (Permutation_sym (Hord _))).
      apply get_Ok_In in Hg. apply (in_map fst) in Hg. exact Hg. }
    assert (Hv : violates people ht person = false).
    { destruct (violates people ht person) eqn:E; [|reflexivity].
      assert (Hex : existsb (violates people ht) (order (Dict.keys people)) = true)
        by (apply existsb_exists; exists person; split; assumption).
      congruence. }
    unfold violates in Hv. rewrite Hg, Ht in Hv.
    apply negb_false_iff, Bool.eqb_prop in Hv. symmetry. exact Hv.
Qed.

(** C3. The loop of [main] is a fold of "compute the joint probability,
    then update" over the list [hypotheses], and nothing else touches the
    accumulator.  Every hypothesis of that list has one-gene and two-gene
    sets that are disjoint subsets of the people, a trait set that is a
    subset of the people, and agrees with every observed trait.  So, when
    everybody's trait is observed, a trait set that differs from the
    evidence on some person never reaches [joint_probability] and adds
    nothing to the accumulator. *)
Theorem enumeration_passes_valid_hypotheses
  (order : pyset -> list string) (people : Dict.t person) :
  order_ok order ->
  enumerate order people
  = foldM (step_hypothesis people) (hypotheses order people)
          (init_probabilities people) /\
  (forall one_gene two_genes have_trait,
     In (one_gene, two_genes, have_trait) (hypotheses order people) ->
     incl one_gene (Dict.keys people) /\
     incl two_genes (Dict.keys people) /\
     incl have_trait (Dict.keys people) /\
     disjoint one_gene two_genes /\
     forall person p t,
       Dict.get people person = Ok p -> trait p = Some t ->
       set_in person have_trait = t) /\
  ((forall person p, Dict.get people person = Ok p -> trait p <> None) ->
   forall have_trait,
     (exists person p, Dict.get people person = Ok p /\
                       trait p <> Some (set_in person have_trait)) ->
     forall one_gene two_genes,
       ~ In (one_gene, two_genes, have_trait) (hypotheses order people)).
Proof.
  intros Hord. split; [apply enumerate_hypotheses; exact Hord|]. split.
  - intros og tg ht Hin.
    exact (hypotheses_valid order people (og, tg, ht) Hord Hin).
  - intros Hfull ht [person [p [Hg Hdiff]]] og tg Hin.
    pose proof (hypotheses_valid order people (og, tg, ht) Hord Hin) as Hv.
    destruct Hv as [_ [_ [_ [_ Hev]]]].
    destruct (trait p) as [t|] eqn:Et.
    + apply Hdiff. f_equal. symmetry. exact (Hev person p t Hg Et).
    + exact (Hfull person p Hg Et).
Qed.

Lemma enumeration_passes_valid_hypotheses_witness :
  enumerate (fun s => s) family0
  = foldM (step_hypothesis family0) (hypotheses (fun s => s) family0)
          (init_probabilities family0).
Proof.
  exact (proj1 (enumeration_passes_valid_hypotheses (fun s => s) family0
                  (fun s => Permutation_refl s))).
Defined.

(** ** Finite sums of rationals *)

Lemma qsum_cons {A} (f : A -> Qc) (a : A) (l : list A) :
  qsum f (a :: l) = f a + qsum f l.
Proof. reflexivity. Qed.

Lemma qsum_app {A} (f : A -> Qc) (l1 l2 : list A) :
  qsum f (l1 ++ l2) = qsum f l1 + qsum f l2.
Proof.
  induction l1 as [|a l1 IH]; simpl; [ring|].
  fold (qsum f (l1 ++ l2)). fold (qsum f l1). rewrite IH. ring.
Qed.

Lemma qsum_map {A B} (f : B -> Qc) (h : A -> B) (l : list A) :
  qsum f (map h l) = qsum (fun a => f (h a)) l.
Proof.
  induction l as [|a l IH]; simpl; [reflexivity|].
  fold (qsum f (map h l)). rewrite IH. reflexivity.
Qed.

Lemma qsum_flat_map {A B} (f : B -> Qc) (g : A -> list B) (l : list A) :
  qsum f (flat_map g l) = qsum (fun a => qsum f (g a)) l.
Proof.
  induction l as [|a l IH]; simpl; [reflexivity|].
  rewrite qsum_app, IH. reflexivity.
Qed.

Lemma qsum_ext {A} (f g : A -> Qc) (l : list A) :
  (forall a, In a l -> f a = g a) -> qsum f l = qsum g l.
Proof.
  induction l as [|a l IH]; intros H; simpl; [reflexivity|].
  fold (qsum f l). fold (qsum g l).
  rewrite (H a (or_introl eq_refl)), IH; [reflexivity|].
  intros b Hb. apply H. right. exact Hb.
Qed.

Lemma qsum_plus {A} (f g : A -> Qc) (l : list A) :
  qsum (fun a => f a + g a) l = qsum f l + qsum g l.
Proof.
  induction l as [|a l IH]; simpl; [ring|].
  fold (qsum (fun a => f a + g a) l). fold (qsum f l). fold (qsum g l).
  rewrite IH. ring.
Qed.


Lemma qsum_zero {A} (l : list A) : qsum (fun _ => 0) l = 0.
Proof.
  induction l as [|a l IH]; simpl; [reflexivity|].
  fold (qsum (fun _ : A => 0) l). rewrite IH. ring.
Qed.

Lemma qsum_perm {A} (f : A -> Qc) (l l' : list A) :
  Permutation l l' -> qsum f l = qsum f l'.
Proof.
  induction 1 as [|a l l' _ IH|a b l|l1 l2 l3 _ IH1 _ IH2].
  - reflexivity.
  - rewrite !qsum_cons, IH. reflexivity.
  - rewrite !qsum_cons. ring.
  - congruence.
Qed.

(** ** All subsets of a set, whatever the order *)

Lemma combinations_nil_gt {A} (l : list A) :
  forall r, (List.length l < r)%nat -> combinations l r = [].
Proof.
  induction l as [|x l IH]; intros [|r] H; simpl in *; try lia; try reflexivity.
  rewrite (IH r), (IH (S r)) by lia. reflexivity.
Qed.

Lemma combinations_0 {A} (l : list A) : combinations l 0 = [[]].
Proof. destruct l; reflexivity. Qed.

Lemma flat_map_app_perm {A B} (f g : A -> list B) (l : list A) :
  Permutation (flat_map (fun a => f a ++ g a) l) (flat_map f l ++ flat_map g l).
Proof.
  induction l as [|a l IH]; simpl; [constructor|].
  rewrite IH. rewrite <- !app_assoc. apply Permutation_app_head.
  rewrite !app_assoc. apply Permutation_app_tail. apply Permutation_app_comm.
Qed.

Lemma flat_map_map_cons {A B} (x : B) (f : A -> list (list B)) (l : list A) :
  flat_map (fun a => map (cons x) (f a)) l = map (cons x) (flat_map f l).
Proof.
  induction l as [|a l IH]; simpl; [reflexivity|].
  rewrite IH, map_app. reflexivity.
Qed.

Lemma plist_cons {A} (x : A) (l : list A) :
  Permutation (plist (x :: l)) (plist l ++ map (cons x) (plist l)).
Proof.
  unfold plist. cbn [List.length].
  replace (S (List.length l) + 1)%nat with (S (List.length l + 1)) by lia.
  rewrite <- cons_seq, <- seq_shift. cbn [flat_map].
  rewrite flat_map_concat_map, map_map, <- flat_map_concat_map.
  cbn [combinations].
  change ([[]] ++ flat_map (fun r => map (cons x) (combinations l r)
                                     ++ combinations l (S r))
                   (seq 0 (List.length l + 1)))
    with ([[]] ++ flat_map (fun r => (fun r => map (cons x) (combinations l r)) r
                                     ++ (fun r => combinations l (S r)) r)
                   (seq 0 (List.length l + 1))).
  rewrite flat_map_app_perm, flat_map_map_cons.
  rewrite app_assoc. rewrite Permutation_app_comm with (l' := map _ _).
  rewrite <- app_assoc.
  rewrite Permutation_app_comm. apply Permutation_app_tail.
  (* [[]] ++ the combinations of sizes 1 .. n+1 are those of sizes 0 .. n *)
  replace (flat_map (fun r => combinations l (S r)) (seq 0 (List.length l + 1)))
    with (flat_map (combinations l) (seq 1 (List.length l + 1))).
  2:{ rewrite <- seq_shift, flat_map_concat_map, map_map,
        <- flat_map_concat_map. reflexivity. }
  replace (List.length l + 1)%nat with (S (List.length l)) by lia.
  rewrite seq_S with (start := 1%nat). rewrite flat_map_app. cbn [flat_map].
  rewrite (combinations_nil_gt l (1 + List.length l)) by lia.
  rewrite !app_nil_r.
  rewrite <- (combinations_0 l) at 1.
  change (combinations l 0 ++ flat_map (combinations l) (seq 1 (List.length l)))
    with (flat_map (combinations l) (0%nat :: seq 1 (List.length l))).
  reflexivity.
Qed.

Lemma plist_subseqs {A} (l : list A) : Permutation (plist l) (subseqs l).
Proof.
  induction l as [|x l IH].
  - apply Permutation_refl.
  - rewrite plist_cons. simpl. rewrite IH. apply Permutation_refl.
Qed.

Lemma set_eq_refl (s : pyset) : set_eq s s.
Proof. intros x. reflexivity. Qed.

Lemma set_eq_cons (x : string) (s s' : pyset) :
  set_eq s s' -> set_eq (x :: s) (x :: s').
Proof.
  intros H y. specialize (H y). unfold set_in in *. simpl.
  rewrite H. reflexivity.
Qed.

Lemma set_eq_swap (x y : string) (s : pyset) :
  set_eq (x :: y :: s) (y :: x :: s).
Proof.
  intros z. unfold set_in. simpl.
  destruct (String.eqb z x), (String.eqb z y); reflexivity.
Qed.

Lemma qsum_subseqs_cons {A} (G : list A -> Qc) (x : A) (l : list A) :
  qsum G (subseqs (x :: l))
  = qsum G (subseqs l) + qsum (fun s => G (x :: s)) (subseqs l).
Proof. simpl. rewrite qsum_app, qsum_map. reflexivity. Qed.

Lemma qsum_subseqs_perm (l l' : pyset) :
  Permutation l l' ->
  forall G, respects G -> qsum G (subseqs l) = qsum G (subseqs l').
Proof.
  induction 1 as [|x l l' _ IH|x y l|l1 l2 l3 _ IH1 _ IH2]; intros G HG.
  - reflexivity.
  - rewrite !qsum_subseqs_cons. rewrite (IH G HG). f_equal.
    apply IH. intros s s' Hs. apply HG. apply set_eq_cons. exact Hs.
  - rewrite !qsum_subseqs_cons.
    rewrite (qsum_ext (fun s => G (x :: y :: s)) (fun s => G (y :: x :: s)))
      by (intros s _; apply HG; apply set_eq_swap).
    ring.
  - rewrite (IH1 G HG). apply IH2. exact HG.
Qed.

Lemma qsum_powerset (order : pyset -> list string) (s : pyset) (G : pyset -> Qc) :
  order_ok order -> respects G ->
  qsum G (powerset order s) = qsum G (subseqs s).
Proof.
  intros Hord HG. unfold powerset. fold (plist (order s)).
  rewrite (qsum_perm G _ _ (plist_subseqs (order s))).
  apply qsum_subseqs_perm; [apply Hord|exact HG].
Qed.

Lemma subseqs_incl {A} (l c : list A) : In c (subseqs l) -> incl c l.
Proof.
  revert c. induction l as [|x l IH]; intros c Hin; simpl in Hin.
  - destruct Hin as [<-|[]]. intros y [].
  - apply in_app_or in Hin. destruct Hin as [Hin|Hin].
    + intros y Hy. right. exact (IH c Hin y Hy).
    + apply in_map_iff in Hin. destruct Hin as [c' [<- Hc']].
      intros y [<-|Hy]; [left; reflexivity|right; exact (IH c' Hc' y Hy)].
Qed.

(** ** What [joint_probability] returns, and when it raises *)

Lemma mem_In {V} (d : Dict.t V) (k : string) :
  Dict.mem d k = true <-> In k (Dict.keys d).
Proof. apply set_in_In. Qed.

Lemma root_prob_factor (people : Dict.t person)
  (one_gene two_genes have_trait : pyset) (e : string * person) :
  In e people -> is_None (mother (snd e)) = true ->
  root_prob (get_gene_numbers people one_gene two_genes) have_trait e
  = Ok (factor (one_gene, two_genes, have_trait) e).
Proof.
  intros Hin Hm. unfold root_prob, factor.
  rewrite get_gene_numbers_get by (apply in_map; exact Hin).
  cbn [bind].
  pose proof (gene_number_le_2 one_gene two_genes (fst e)) as Hle.
  rewrite PROBS_gene_prior, PROBS_trait_given by exact Hle. cbn [bind].
  destruct (mother (snd e)); [discriminate|]. reflexivity.
Qed.

Lemma child_prob_factor (people : Dict.t person)
  (one_gene two_genes have_trait : pyset) (e : string * person) :
  In e people -> is_None (mother (snd e)) = false ->
  child_prob (get_gene_numbers people one_gene two_genes) have_trait e
  = if resolves people e
    then Ok (factor (one_gene, two_genes, have_trait) e)
    else Raise "KeyError".
Proof.
  intros Hin Hm. unfold child_prob, factor, resolves.
  destruct (mother (snd e)) as [m|]; [|discriminate]. cbn [get_opt].
  destruct (Dict.mem people m) eqn:Em.
  - rewrite get_gene_numbers_get by (apply mem_In; exact Em). cbn [bind].
    destruct (father (snd e)) as [f|]; [|reflexivity]. cbn [get_opt andb].
    destruct (Dict.mem people f) eqn:Ef.
    + rewrite !get_gene_numbers_get
        by (try (apply mem_In; exact Ef); apply in_map; exact Hin).
      cbn [bind].
      pose proof (gene_number_le_2 one_gene two_genes (fst e)) as Hle.
      rewrite PROBS_trait_given by exact Hle. reflexivity.
    + rewrite get_gene_numbers_missing; [reflexivity|].
      intros H. apply mem_In in H. congruence.
  - rewrite get_gene_numbers_missing.
    + cbn [bind]. destruct (father (snd e)); reflexivity.
    + intros H. apply mem_In in H. congruence.
Qed.

Lemma forallb_filter_false {A} (p q : A -> bool) (l : list A) :
  (forall a, In a l -> q a = false -> p a = true) ->
  forallb p l = forallb p (filter q l).
Proof.
  induction l as [|a l IH]; intros H; simpl; [reflexivity|].
  rewrite IH by (intros b Hb; apply H; right; exact Hb).
  destruct (q a) eqn:E; simpl; [reflexivity|].
  rewrite (H a (or_introl eq_refl) E). reflexivity.
Qed.

(** [joint_probability] raises [KeyError] when some parent link does not
    resolve, [TypeError] when there is nobody, and otherwise returns the
    product of the factors. *)
Lemma joint_probability_cases (people : Dict.t person)
  (one_gene two_genes have_trait : pyset) :
  joint_probability people one_gene two_genes have_trait
  = if forallb (resolves people) people
    then match people with
         | [] => Raise "TypeError"
         | _ => Ok (weight people (one_gene, two_genes, have_trait))
         end
    else Raise "KeyError".
Proof.
  unfold joint_probability.
  set (h := (one_gene, two_genes, have_trait)).
  rewrite (mapM_Ok_map _ (factor h)).
  2:{ intros e He. apply filter_In in He. destruct He as [Hin Hm].
      apply root_prob_factor; assumption. }
  cbn [bind].
  rewrite (forallb_filter_false (resolves people)
             (fun e => negb (is_None (mother (snd e)))) people).
  2:{ intros e _ He. apply negb_false_iff in He. unfold resolves.
      destruct (mother (snd e)); [discriminate|reflexivity]. }
  destruct (forallb (resolves people)
              (filter (fun e => negb (is_None (mother (snd e)))) people)) eqn:Eall.
  - rewrite (mapM_Ok_map _ (factor h)).
    2:{ intros e He. rewrite forallb_forall in Eall.
        pose proof (Eall e He) as Hr.
        apply filter_In in He. destruct He as [Hin Hm].
        apply negb_true_iff in Hm.
        unfold h. rewrite (child_prob_factor people _ _ _ e Hin Hm), Hr.
        reflexivity. }
    cbn [bind].
    destruct people as [|e people]; [reflexivity|].
    rewrite reduce_mul_product.
    + rewrite product_app, product_partition. reflexivity.
    + intros H. apply app_eq_nil in H. destruct H as [H1 H2]. simpl in H1, H2.
      destruct (is_None (mother (snd e))); simpl in H1, H2; discriminate.
  - rewrite (mapM_Raise _ "KeyError"); [reflexivity| |].
    + intros e e' He Hraise.
      apply filter_In in He. destruct He as [Hin Hm]. apply negb_true_iff in Hm.
      rewrite (child_prob_factor people _ _ _ e Hin Hm) in Hraise.
      destruct (resolves people e); congruence.
    + assert (Hex : exists e, In e (filter (fun e => negb (is_None (mother (snd e))))
                                       people) /\ resolves people e = false).
      { clear -Eall.
        induction (filter (fun e => negb (is_None (mother (snd e)))) people)
          as [|a l IH]; simpl in Eall; [discriminate|].
        destruct (resolves people a) eqn:Ea.
        - destruct (IH Eall) as [e [He Hr]]. exists e. split; [right|]; assumption.
        - exists a. split; [left; reflexivity|exact Ea]. }
      destruct Hex as [e [He Hr]]. exists e. split; [exact He|].
      apply filter_In in He. destruct He as [Hin Hm]. apply negb_true_iff in Hm.
      rewrite (child_prob_factor people _ _ _ e Hin Hm), Hr. reflexivity.
Qed.

(** ** The accumulator after the loop *)

Lemma marginals_eq (a b : marginals) :
  gene2 (gene a) = gene2 (gene b) -> gene1 (gene a) = gene1 (gene b) ->
  gene0 (gene a) = gene0 (gene b) ->
  traitT (trait_d a) = traitT (trait_d b) ->
  traitF (trait_d a) = traitF (trait_d b) -> a = b.
Proof.
  destruct a as [[a2 a1 a0] [aT aF]], b as [[b2 b1 b0] [bT bF]]. simpl.
  intros -> -> -> -> ->. reflexivity.
Qed.

Lemma madd_bump_tally (w : hypothesis -> Qc) (h : hypothesis)
  (hyps : list hypothesis) (m : marginals) (n : string) :
  madd (bump m (gene_of h n) (trait_of h n) (w h)) (tally w hyps n)
  = madd m (tally w (h :: hyps) n).
Proof.
  pose proof (gene_number_le_2 (fst (fst h)) (snd (fst h)) n) as Hle.
  fold (gene_of h n) in Hle.
  apply marginals_eq; unfold madd, tally, bump, trait_add;
    cbn [gene trait_d gene2 gene1 gene0 traitT traitF];
    rewrite ?qsum_cons;
    destruct (gene_of h n) as [|[|[|g]]]; try lia;
    destruct (trait_of h n);
    cbn [Nat.eqb ind negb gene trait_d gene2 gene1 gene0 traitT traitF]; ring.
Qed.

Lemma foldM_step_tally (people : Dict.t person) (w : hypothesis -> Qc)
  (hyps : list hypothesis) :
  (forall one_gene two_genes have_trait,
     joint_probability people one_gene two_genes have_trait
     = Ok (w (one_gene, two_genes, have_trait))) ->
  forall acc,
    foldM (step_hypothesis people) hyps acc
    = Ok (map (fun e => (fst e, madd (snd e) (tally w hyps (fst e)))) acc).
Proof.
  intros Hw. induction hyps as [|[[og tg] ht] hyps IH]; intros acc.
  - simpl. f_equal. rewrite <- (map_id acc) at 1. apply map_ext.
    intros [n m]. simpl. f_equal.
    apply marginals_eq; simpl; ring.
  - cbn [foldM step_hypothesis]. unfold step. rewrite Hw. cbn [bind].
    rewrite update_Ok. cbn [bind]. rewrite IH.
    unfold bump_all. rewrite map_map. f_equal. apply map_ext.
    intros [n m]. cbn [fst snd]. f_equal.
    exact (madd_bump_tally w (og, tg, ht) hyps m n).
Qed.

Lemma enumerate_tally (order : pyset -> list string) (people : Dict.t person)
  (w : hypothesis -> Qc) :
  order_ok order ->
  (forall one_gene two_genes have_trait,
     joint_probability people one_gene two_genes have_trait
     = Ok (w (one_gene, two_genes, have_trait))) ->
  enumerate order people
  = Ok (map (fun e => (fst e, tally w (hypotheses order people) (fst e)))
            people).
Proof.
  intros Hord Hw. rewrite enumerate_hypotheses by exact Hord.
  rewrite (foldM_step_tally people w _ Hw).
  unfold init_probabilities. rewrite map_map. f_equal. apply map_ext.
  intros [n m]. cbn [fst snd]. f_equal.
  apply marginals_eq; simpl; ring.
Qed.

(** ** Sums over the hypotheses, whatever the order *)

Lemma set_diff_ext (l og og' : pyset) :
  set_eq og og' -> set_diff l og = set_diff l og'.
Proof.
  intros H. unfold set_diff. apply filter_ext. intros x. rewrite (H x). reflexivity.
Qed.

Lemma violates_ext (people : Dict.t person) (ht ht' : pyset) (n : string) :
  set_eq ht ht' -> violates people ht n = violates people ht' n.
Proof. intros H. unfold violates. rewrite (H n). reflexivity. Qed.

Lemma existsb_perm {A} (f : A -> bool) (l l' : list A) :
  Permutation l l' -> existsb f l = existsb f l'.
Proof.
  induction 1 as [|a l l' _ IH|a b l|l1 l2 l3 _ IH1 _ IH2]; simpl.
  - reflexivity.
  - rewrite IH. reflexivity.
  - destruct (f a), (f b); reflexivity.
  - congruence.
Qed.

Lemma consistent_ext (people : Dict.t person) (ht ht' : pyset) :
  set_eq ht ht' -> consistent people ht = consistent people ht'.
Proof.
  intros H. unfold consistent. f_equal.
  induction (Dict.keys people) as [|n l IH]; simpl; [reflexivity|].
  rewrite IH, (violates_ext people ht ht' n H). reflexivity.
Qed.

Lemma hypotheses_qsum (order : pyset -> list string) (people : Dict.t person)
  (F : hypothesis -> Qc) :
  order_ok order -> respects_hyp F ->
  qsum F (hypotheses order people)
  = total_sum (Dict.keys people)
      (fun h => ind (consistent people (snd h)) (F h)).
Proof.
  intros Hord HF. unfold hypotheses, total_sum.
  rewrite qsum_flat_map.
  rewrite (qsum_powerset order _ _ Hord).
  - apply qsum_ext. intros ht _.
    rewrite (existsb_perm _ _ _ (Hord (Dict.keys people))).
    cbn [snd]. unfold consistent.
    destruct (existsb (violates people ht) (Dict.keys people)); cbn [negb ind].
    + cbn [qsum fold_right].
      rewrite <- (qsum_zero (subseqs (Dict.keys people))) at 1.
      apply qsum_ext. intros og _. symmetry. apply qsum_zero.
    + rewrite qsum_flat_map.
      rewrite (qsum_powerset order _ _ Hord).
      * apply qsum_ext. intros og _. rewrite qsum_map.
        apply (qsum_powerset order _ (fun tg => F (og, tg, ht)) Hord).
        intros s s' Hs. apply HF. repeat split; try apply set_eq_refl. exact Hs.
      * intros s s' Hs. rewrite !qsum_map.
        rewrite (set_diff_ext _ s s' Hs).
        apply qsum_ext. intros tg _. apply HF.
        repeat split; try apply set_eq_refl. exact Hs.
  - intros s s' Hs.
    rewrite (existsb_perm (violates people s) _ _ (Hord (Dict.keys people))).
    rewrite (existsb_perm (violates people s') _ _ (Hord (Dict.keys people))).
    assert (Hc := consistent_ext people s s' Hs). unfold consistent in Hc.
    apply (f_equal negb) in Hc. rewrite !negb_involutive in Hc. rewrite Hc.
    destruct (existsb (violates people s') (Dict.keys people));
      [reflexivity|].
    rewrite !qsum_flat_map. apply qsum_ext. intros og _.
    rewrite !qsum_map. apply qsum_ext. intros tg _. apply HF.
    repeat split; try apply set_eq_refl. exact Hs.
Qed.

Lemma gene_number_ext (og og' tg tg' : pyset) (n : string) :
  set_eq og og' -> set_eq tg tg' ->
  gene_number og tg n = gene_number og' tg' n.
Proof.
  intros H1 H2. unfold gene_number. rewrite (H1 n), (H2 n). reflexivity.
Qed.

Lemma factor_ext (h h' : hypothesis) (e : string * person) :
  hyp_eq h h' -> factor h e = factor h' e.
Proof.
  destruct h as [[og tg] ht], h' as [[og' tg'] ht'].
  intros [H1 [H2 H3]]. simpl in H1, H2, H3. unfold factor.
  rewrite (gene_number_ext og og' tg tg' (fst e) H1 H2), (H3 (fst e)).
  destruct (mother (snd e)) as [m|], (father (snd e)) as [f|]; try reflexivity.
  rewrite (gene_number_ext og og' tg tg' m H1 H2),
    (gene_number_ext og og' tg tg' f H1 H2).
  reflexivity.
Qed.

Lemma weight_ext (people : Dict.t person) : respects_hyp (weight people).
Proof.
  intros h h' H. unfold weight. f_equal. apply map_ext.
  intros e. apply factor_ext. exact H.
Qed.

Lemma gene_of_ext (h h' : hypothesis) (n : string) :
  hyp_eq h h' -> gene_of h n = gene_of h' n.
Proof. intros [H1 [H2 _]]. apply gene_number_ext; assumption. Qed.

Lemma trait_of_ext (h h' : hypothesis) (n : string) :
  hyp_eq h h' -> trait_of h n = trait_of h' n.
Proof. intros [_ [_ H3]]. exact (H3 n). Qed.

Lemma tally_order (o1 o2 : pyset -> list string) (people : Dict.t person)
  (n : string) :
  order_ok o1 -> order_ok o2 ->
  tally (weight people) (hypotheses o1 people) n
  = tally (weight people) (hypotheses o2 people) n.
Proof.
  intros H1 H2. unfold tally.
  assert (Hg : forall k,
             respects_hyp (fun h => ind (Nat.eqb (gene_of h n) k) (weight people h))).
  { intros k h h' Hh.
    rewrite (gene_of_ext h h' n Hh), (weight_ext people h h' Hh). reflexivity. }
  assert (Ht : respects_hyp (fun h => ind (trait_of h n) (weight people h))).
  { intros h h' Hh.
    rewrite (trait_of_ext h h' n Hh), (weight_ext people h h' Hh). reflexivity. }
  assert (Hf : respects_hyp (fun h => ind (negb (trait_of h n)) (weight people h))).
  { intros h h' Hh.
    rewrite (trait_of_ext h h' n Hh), (weight_ext people h h' Hh). reflexivity. }
  rewrite !(hypotheses_qsum o1 people _ H1 (Hg _)).
  rewrite !(hypotheses_qsum o2 people _ H2 (Hg _)).
  rewrite (hypotheses_qsum o1 people _ H1 Ht), (hypotheses_qsum o2 people _ H2 Ht).
  rewrite (hypotheses_qsum o1 people _ H1 Hf), (hypotheses_qsum o2 people _ H2 Hf).
  reflexivity.
Qed.

(** *** The loop always reaches [joint_probability] *)

Lemma filter_in_combinations {A} (f : A -> bool) (l : list A) :
  In (filter f l) (combinations l (List.length (filter f l))).
Proof.
  induction l as [|x l IH]; simpl; [left; reflexivity|].
  destruct (f x); simpl.
  - apply in_or_app. left. apply in_map. exact IH.
  - destruct (filter f l) as [|y c] eqn:E; simpl in *.
    + left; reflexivity.
    + apply in_or_app. right. exact IH.
Qed.

Lemma filter_in_plist {A} (f : A -> bool) (l : list A) :
  In (filter f l) (plist l).
Proof.
  unfold plist. apply in_flat_map.
  exists (List.length (filter f l)). split; [|apply filter_in_combinations].
  apply in_seq. pose proof (filter_length_le f l). lia.
Qed.

Lemma nil_in_plist {A} (l : list A) : In [] (plist l).
Proof.
  unfold plist. apply in_flat_map. exists 0%nat. split.
  - apply in_seq. lia.
  - rewrite combinations_0. left; reflexivity.
Qed.

Lemma hypotheses_nonempty (order : pyset -> list string)
  (people : Dict.t person) :
  order_ok order -> hypotheses order people <> [].
Proof.
  intros Hord.
  set (names := Dict.keys people).
  set (ev := filter (shows_trait people) (order names)).
  assert (Hin : In ([], [], ev) (hypotheses order people)).
  { unfold hypotheses. apply in_flat_map. exists ev. split.
    - unfold powerset. apply filter_in_plist.
    - fold names.
      assert (Hv : existsb (violates people ev) (order names) = false).
      { destruct (existsb (violates people ev) (order names)) eqn:E; [|reflexivity].
        apply existsb_exists in E. destruct E as [n [Hn Hviol]].
        unfold violates in Hviol.
        destruct (Dict.get people n) as [p|] eqn:Hg; [|discriminate].
        destruct (trait p) as [t|] eqn:Ht; [|discriminate].
        apply negb_true_iff, Bool.eqb_false_iff in Hviol.
        exfalso. apply Hviol.
        destruct (set_in n ev) eqn:Es.
        - apply set_in_In in Es. apply filter_In in Es. destruct Es as [_ Es].
          unfold shows_trait in Es. rewrite Hg, Ht in Es.
          destruct t; [reflexivity|discriminate].
        - apply set_in_false in Es.
          destruct t; [|reflexivity]. exfalso. apply Es.
          apply filter_In. split; [exact Hn|].
          unfold shows_trait. rewrite Hg, Ht. reflexivity. }
      rewrite Hv. apply in_flat_map. exists []. split.
      + unfold powerset. apply nil_in_plist.
      + apply in_map_iff. exists []. split; [reflexivity|].
        unfold powerset. apply nil_in_plist. }
  intros H. rewrite H in Hin. destruct Hin.
Qed.

Lemma enumerate_Raise (order : pyset -> list string) (people : Dict.t person)
  (e : string) :
  order_ok order ->
  (forall one_gene two_genes have_trait,
     joint_probability people one_gene two_genes have_trait = Raise e) ->
  enumerate order people = Raise e.
Proof.
  intros Hord Hjp. rewrite enumerate_hypotheses by exact Hord.
  pose proof (hypotheses_nonempty order people Hord) as Hne.
  destruct (hypotheses order people) as [|[[og tg] ht] hyps]; [congruence|].
  cbn [foldM step_hypothesis]. unfold step. rewrite Hjp. reflexivity.
Qed.

Lemma enumerate_order (o1 o2 : pyset -> list string) (people : Dict.t person) :
  order_ok o1 -> order_ok o2 ->
  enumerate o1 people = enumerate o2 people.
Proof.
  intros H1 H2.
  pose proof (joint_probability_cases people) as Hjp.
  destruct (forallb (resolves people) people).
  - destruct people as [|e people].
    + rewrite (enumerate_Raise o1 [] "TypeError" H1 Hjp),
        (enumerate_Raise o2 [] "TypeError" H2 Hjp). reflexivity.
    + rewrite (enumerate_tally o1 _ (weight (e :: people)) H1 Hjp),
        (enumerate_tally o2 _ (weight (e :: people)) H2 Hjp).
      f_equal. apply map_ext. intros a. f_equal.
      apply tally_order; assumption.
  - rewrite (enumerate_Raise o1 people "KeyError" H1 Hjp),
      (enumerate_Raise o2 people "KeyError" H2 Hjp). reflexivity.
Qed.

(** ** The run in binary64 arithmetic *)

(** The decimal literals of [PROBS] denote the floats nearest to the
    fractions they stand for, as the literals of the source do. *)
Lemma PROBS_literals :
  (0.01 = 1 / 100 /\ 0.03 = 3 / 100 /\ 0.96 = 96 / 100 /\
   0.65 = 65 / 100 /\ 0.35 = 35 / 100 /\ 0.56 = 56 / 100 /\
   0.44 = 44 / 100 /\ 0.99 = 99 / 100 /\ 0.5 = 1 / 2)%float.
Proof. repeat split. Qed.

(** C8, as the specification words it, fails.  Two runs on the same file
    need not walk the set [names] in the same order, and the sums [update]
    accumulates are rounded after every addition, so they depend on the
    order of the hypotheses.  On the three-person family, walking the sets
    in the order of the file and in the reverse order leaves two different
    accumulators, and the two tables [main] returns differ in the last
    digits: Harry's entry for no copy of the gene is 0.53511861014614859
    in one run and 0.5351186101461487 in the other, whichever way the
    interpreter computes [sum]. *)
Lemma inference_depends_on_order :
  order_ok (fun s => s) /\ order_ok (@rev string) /\
  (exists a1 a2 m1 m2,
     Binary64.enumerate (fun s => s) family0 = Ok a1 /\
     Binary64.enumerate (@rev string) family0 = Ok a2 /\
     Dict.get a1 "Harry" = Ok m1 /\ Dict.get a2 "Harry" = Ok m2 /\
     Binary64.gene0 (Binary64.gene m1) = 0.017026184538999997%float /\
     Binary64.gene0 (Binary64.gene m2) = 0.017026184539000001%float) /\
  (forall sum, sum = Binary64.sum_plain \/ sum = Binary64.sum_compensated ->
     exists t1 t2 m1 m2,
       Binary64.main sum (fun s => s) family0_rows = Ok t1 /\
       Binary64.main sum (@rev string) family0_rows = Ok t2 /\
       Dict.get t1 "Harry" = Ok m1 /\ Dict.get t2 "Harry" = Ok m2 /\
       Binary64.gene0 (Binary64.gene m1) = 0.53511861014614859%float /\
       Binary64.gene0 (Binary64.gene m2) = 0.5351186101461487%float /\
       PrimFloat.ltb (Binary64.gene0 (Binary64.gene m1))
                     (Binary64.gene0 (Binary64.gene m2)) = true /\
       Binary64.main sum (fun s => s) family0_rows
       <> Binary64.main sum (@rev string) family0_rows).
Proof.
  split; [intros s; apply Permutation_refl|].
  split; [intros s; apply Permutation_sym, Permutation_rev|].
  split.
  - do 4 eexists.
    split; [vm_compute; reflexivity|].
    split; [vm_compute; reflexivity|].
    split; [vm_compute; reflexivity|].
    split; [vm_compute; reflexivity|].
    split; vm_compute; reflexivity.
  - assert (Hne : forall r1 r2,
              (match r1 with
               | Ok t => match Dict.get t "Harry" with
                         | Ok m => PrimFloat.eqb (Binary64.gene0 (Binary64.gene m))
                                                 0.53511861014614859%float
                         | Raise _ => false
                         end
               | Raise _ => false
               end = true) ->
              (match r2 with
               | Ok t => match Dict.get t "Harry" with
                         | Ok m => PrimFloat.eqb (Binary64.gene0 (Binary64.gene m))
                                                 0.53511861014614859%float
                         | Raise _ => false
                         end
               | Raise _ => false
               end = false) ->
              r1 <> r2 :> result (Dict.t Binary64.marginals)).
    { intros r1 r2 H1 H2 E. rewrite E, H2 in H1. discriminate. }
    intros sum [->| ->]; do 4 eexists;
      (split; [vm_compute; reflexivity|]);
      (split; [vm_compute; reflexivity|]);
      (split; [vm_compute; reflexivity|]);
      (split; [vm_compute; reflexivity|]);
      (split; [vm_compute; reflexivity|]);
      (split; [vm_compute; reflexivity|]);
      (split; [vm_compute; reflexivity|]);
      apply Hne; vm_compute; reflexivity.
Qed.

(** C8 (amended). The run contains no choice of its own: the one thing
    Python leaves open is the order in which sets are walked, and in exact
    arithmetic the table [main] computes does not depend on it.  For any
    two orders, the loop leaves the very same accumulator, and inference
    returns the very same marginals for every person, or raises the very
    same exception.  Two runs therefore agree up to the rounding of the
    float additions, and not to the last bit. *)
Theorem inference_order_independent
  (order1 order2 : pyset -> list string) :
  order_ok order1 -> order_ok order2 ->
  (forall people, enumerate order1 people = enumerate order2 people) /\
  (forall people, infer order1 people = infer order2 people) /\
  (forall rows, main order1 rows = main order2 rows).
Proof.
  intros H1 H2.
  assert (He : forall people, enumerate order1 people = enumerate order2 people)
    by (intros people; apply enumerate_order; assumption).
  split; [exact He|].
  split; intros x; unfold main, infer; rewrite He; reflexivity.
Qed.

Lemma inference_order_independent_witness :
  main (fun s => s) family0_rows = main (@rev string) family0_rows.
Proof.
  apply (inference_order_independent (fun s => s) (@rev string)).
  - intros s. apply Permutation_refl.
  - intros s. apply Permutation_sym. apply Permutation_rev.
Defined.

(** ** Summing one person out of the enumeration *)







Lemma factor_gene_law (h : hypothesis) (e : string * person) :
  factor h e
  = gene_law h (snd e) (gene_of h (fst e))
    * Spec.TraitGivenGene (gene_of h (fst e)) (trait_of h (fst e)).
Proof.
  destruct h as [[og tg] ht]. unfold factor, gene_law, gene_of, trait_of.
  cbn [fst snd].
  destruct (mother (snd e)), (father (snd e)); reflexivity.
Qed.

Lemma parent_giving_sum (g : nat) :
  parent_giving g true + parent_giving g false = 1.
Proof.
  destruct g as [|[|g]]; simpl; [ring|exact one_half_double|ring].
Qed.

Lemma inherit_prob_sum (mg fg : nat) :
  inherit_prob mg fg 0 + inherit_prob mg fg 1 + inherit_prob mg fg 2 = 1.
Proof.
  unfold inherit_prob.
  transitivity ((parent_giving mg true + parent_giving mg false)
                * (parent_giving fg true + parent_giving fg false)); [ring|].
  rewrite !parent_giving_sum. ring.
Qed.




Lemma set_in_cons_other (n z : string) (s : pyset) :
  n <> z -> set_in n (z :: s) = set_in n s.
Proof.
  intros H. unfold set_in. simpl.
  apply String.eqb_neq in H. rewrite H. reflexivity.
Qed.

Lemma set_in_cons_same (z : string) (s : pyset) : set_in z (z :: s) = true.
Proof. unfold set_in. simpl. rewrite String.eqb_refl. reflexivity. Qed.








Section Eliminate.

Variable people : Dict.t person.
Variable z : string.
Variable pz : person.
Variable l : pyset.

Hypothesis Hwf : Dict.wf people.
Hypothesis Hz : In (z, pz) people.
Hypothesis Hnone : trait pz = None.
Hypothesis Hzl : ~ In z l.
(** Nobody still to be summed has [z] as a parent. *)
Hypothesis Hleaf :
  forall e, In e people -> In (fst e) (z :: l) ->
            mother (snd e) <> Some z /\ father (snd e) <> Some z.





End Eliminate.







(** ** Every hypothesis has a positive probability *)

Lemma Qc_mul_pos (a b : Qc) : 0 < a -> 0 < b -> 0 < a * b.
Proof.
  intros Ha Hb. rewrite <- (Qcmult_0_l b).
  apply Qcmult_lt_compat_r; assumption.
Qed.

Lemma Qc_add_pos (a b : Qc) : 0 < a -> 0 <= b -> 0 < a + b.
Proof.
  intros Ha Hb. apply Qclt_le_trans with a; [exact Ha|].
  rewrite <- (Qcplus_0_r a) at 1.
  apply Qcplus_le_compat; [apply Qcle_refl|exact Hb].
Qed.

Lemma parent_giving_pos (g : nat) (giving : bool) : 0 < parent_giving g giving.
Proof. destruct g as [|[|g]], giving; reflexivity. Qed.

Lemma inherit_prob_pos (mg fg g : nat) : 0 < inherit_prob mg fg g.
Proof.
  unfold inherit_prob. destruct g as [|[|g]].
  - apply Qc_mul_pos; apply parent_giving_pos.
  - apply Qc_add_pos; [|apply Qclt_le_weak];
      apply Qc_mul_pos; apply parent_giving_pos.
  - apply Qc_mul_pos; apply parent_giving_pos.
Qed.

Lemma GenePrior_pos (g : nat) : 0 < Spec.GenePrior g.
Proof. destruct g as [|[|g]]; reflexivity. Qed.

Lemma TraitGivenGene_pos (g : nat) (t : bool) : 0 < Spec.TraitGivenGene g t.
Proof. destruct g as [|[|g]], t; reflexivity. Qed.

Lemma factor_pos (h : hypothesis) (e : string * person) : 0 < factor h e.
Proof.
  rewrite factor_gene_law. apply Qc_mul_pos; [|apply TraitGivenGene_pos].
  unfold gene_law. destruct (mother (snd e)), (father (snd e));
    try apply GenePrior_pos. apply inherit_prob_pos.
Qed.

Lemma product_pos (l : list Qc) :
  (forall x, In x l -> 0 < x) -> 0 < Spec.product l.
Proof.
  induction l as [|x l IH]; intros H.
  - reflexivity.
  - rewrite product_cons. apply Qc_mul_pos.
    + apply H. left. reflexivity.
    + apply IH. intros y Hy. apply H. right. exact Hy.
Qed.

Lemma weight_pos (people : Dict.t person) (h : hypothesis) :
  0 < weight people h.
Proof.
  unfold weight. apply product_pos. intros x Hx.
  apply in_map_iff in Hx. destruct Hx as [e [<- _]]. apply factor_pos.
Qed.

Lemma qsum_pos {A} (f : A -> Qc) (l : list A) :
  l <> [] -> (forall a, In a l -> 0 < f a) -> 0 < qsum f l.
Proof.
  induction l as [|a l IH]; intros Hne H; [congruence|].
  rewrite qsum_cons. apply Qc_add_pos; [apply H; left; reflexivity|].
  destruct l as [|b l]; [apply Qcle_refl|].
  apply Qclt_le_weak. apply IH; [discriminate|].
  intros c Hc. apply H. right. exact Hc.
Qed.

(** ** The totals of every person after the loop *)

Lemma tally_gene_total (w : hypothesis -> Qc) (hyps : list hypothesis)
  (n : string) :
  gene_total (gene (tally w hyps n)) = qsum w hyps.
Proof.
  rewrite gene_total_eq. unfold tally. cbn [gene gene2 gene1 gene0].
  rewrite <- !qsum_plus. apply qsum_ext. intros h _.
  pose proof (gene_number_le_2 (fst (fst h)) (snd (fst h)) n) as Hle.
  fold (gene_of h n) in Hle.
  destruct (gene_of h n) as [|[|[|g]]]; try lia; cbn [Nat.eqb ind]; ring.
Qed.

Lemma tally_trait_total (w : hypothesis -> Qc) (hyps : list hypothesis)
  (n : string) :
  trait_total (trait_d (tally w hyps n)) = qsum w hyps.
Proof.
  rewrite trait_total_eq. unfold tally. cbn [trait_d traitT traitF].
  rewrite <- !qsum_plus. apply qsum_ext. intros h _.
  destruct (trait_of h n); cbn [negb ind]; ring.
Qed.

Lemma get_map_key {V W} (f : string -> W) (d : Dict.t V) (k : string) :
  In k (Dict.keys d) ->
  Dict.get (map (fun e => (fst e, f (fst e))) d) k = Ok (f k).
Proof.
  induction d as [|[k' v] d IH]; intros Hin; [destruct Hin|].
  simpl. destruct (String.eqb k k') eqn:E.
  - apply String.eqb_eq in E. subst. reflexivity.
  - destruct Hin as [Hk|Hin].
    + simpl in Hk. subst. rewrite String.eqb_refl in E. discriminate.
    + apply IH. exact Hin.
Qed.

(** On a pedigree with at least one person whose parent links all
    resolve, inference returns: every person receives its tally divided
    by the total probability of the hypotheses. *)
Lemma infer_Ok (order : pyset -> list string) (people : Dict.t person) :
  order_ok order -> people <> [] ->
  forallb (resolves people) people = true ->
  0 < qsum (weight people) (hypotheses order people) /\
  infer order people
  = Ok (map (fun e =>
               (fst e,
                normalized (tally (weight people) (hypotheses order people)
                                  (fst e))))
            people).
Proof.
  intros Hord Hne Hres.
  assert (Hpos : 0 < qsum (weight people) (hypotheses order people)).
  { apply qsum_pos; [apply hypotheses_nonempty; exact Hord|].
    intros h _. apply weight_pos. }
  split; [exact Hpos|].
  assert (Hjp : forall og tg ht,
             joint_probability people og tg ht = Ok (weight people (og, tg, ht))).
  { intros og tg ht. rewrite joint_probability_cases, Hres.
    destruct people; [congruence|reflexivity]. }
  unfold infer. rewrite (enumerate_tally order people _ Hord Hjp). cbn [bind].
  unfold normalize.
  rewrite (mapM_Ok_map _ (fun e => (fst e, normalized (snd e)))).
  - rewrite map_map. reflexivity.
  - intros e He. apply in_map_iff in He. destruct He as [e0 [<- _]]. cbn [fst snd].
    rewrite normalize_one_Ok; [reflexivity| |].
    + rewrite tally_gene_total. apply not_eq_sym, Qclt_not_eq. exact Hpos.
    + rewrite tally_trait_total. apply not_eq_sym, Qclt_not_eq. exact Hpos.
Qed.

(** ** A founder whose line shows no evidence keeps the prior *)










Lemma others_In (names L : pyset) (n : string) :
  In n (others names L) <-> In n names /\ ~ In n L.
Proof. apply set_diff_In. Qed.

Lemma perm_split (names L : pyset) :
  NoDup names -> NoDup L -> incl L names ->
  Permutation names (L ++ others names L).
Proof.
  intros Hn HL Hincl. apply NoDup_Permutation; [exact Hn| |].
  - apply NoDup_app; [exact HL|apply NoDup_filter; exact Hn|].
    intros a Ha Hb. apply others_In in Hb. tauto.
  - intros n. rewrite in_app_iff, others_In. split.
    + intros H. destruct (in_dec string_dec n L); [left|right]; tauto.
    + intros [H|[H _]]; [apply Hincl|]; exact H.
Qed.







(** * Further properties of the code *)

(** ** [powerset] and the combinations it chains *)

Lemma combinations_length {A} (s : list A) :
  forall r c, In c (combinations s r) -> List.length c = r.
Proof.
  induction s as [|x s IH]; intros [|r] c Hin; simpl in Hin.
  - destruct Hin as [<-|[]]. reflexivity.
  - destruct Hin.
  - destruct Hin as [<-|[]]. reflexivity.
  - apply in_app_or in Hin. destruct Hin as [Hin|Hin].
    + apply in_map_iff in Hin. destruct Hin as [c' [<- Hc']].
      simpl. f_equal. exact (IH r c' Hc').
    + exact (IH (S r) c Hin).
Qed.

Lemma combinations_full {A} (s : list A) :
  combinations s (List.length s) = [s].
Proof.
  induction s as [|x s IH]; [reflexivity|].
  simpl. rewrite IH. rewrite (combinations_nil_gt s (S (List.length s))) by lia.
  reflexivity.
Qed.

Lemma combinations_NoDup_member {A} (s : list A) :
  NoDup s -> forall r c, In c (combinations s r) -> NoDup c.
Proof.
  induction s as [|x s IH]; intros Hnd [|r] c Hin; simpl in Hin.
  - destruct Hin as [<-|[]]. constructor.
  - destruct Hin.
  - destruct Hin as [<-|[]]. constructor.
  - inversion Hnd as [|? ? Hx Hs]; subst.
    apply in_app_or in Hin. destruct Hin as [Hin|Hin].
    + apply in_map_iff in Hin. destruct Hin as [c' [<- Hc']].
      constructor; [|exact (IH Hs r c' Hc')].
      intros H. apply Hx. exact (combinations_incl s r c' Hc' x H).
    + exact (IH Hs (S r) c Hin).
Qed.

(** X1. [itertools.combinations(s, r)], as [powerset] uses it: every tuple
    it yields has exactly [r] elements, all taken from [s], and without
    repetition when [s] has none; for [r = 0] it yields the empty tuple
    alone, for [r = len(s)] the whole of [s] alone, and for a larger [r]
    nothing. *)
Theorem combinations_shape (s : pyset) :
  (forall r c, In c (combinations s r) ->
               List.length c = r /\ incl c s /\ (NoDup s -> NoDup c)) /\
  combinations s 0 = [[]] /\
  combinations s (List.length s) = [s] /\
  (forall r, (List.length s < r)%nat -> combinations s r = []).
Proof.
  split; [|split; [|split]].
  - intros r c Hin. split; [exact (combinations_length s r c Hin)|]. split.
    + exact (combinations_incl s r c Hin).
    + intros Hnd. exact (combinations_NoDup_member s Hnd r c Hin).
  - apply combinations_0.
  - apply combinations_full.
  - apply combinations_nil_gt.
Qed.

Lemma subseqs_length {A} (l : list A) :
  List.length (subseqs l) = (2 ^ List.length l)%nat.
Proof.
  induction l as [|x l IH]; [reflexivity|].
  simpl. rewrite length_app, length_map, IH. lia.
Qed.

Lemma powerset_plist (order : pyset -> list string) (s : pyset) :
  powerset order s = plist (order s).
Proof. reflexivity. Qed.

(** X2. [powerset(s)] returns a list of 2 to the power [len(s)] sets. *)
Theorem powerset_length (order : pyset -> list string) (s : pyset) :
  order_ok order ->
  List.length (powerset order s) = (2 ^ List.length s)%nat.
Proof.
  intros Hord. rewrite powerset_plist.
  rewrite (Permutation_length (plist_subseqs (order s))), subseqs_length.
  rewrite (Permutation_length (Hord s)). reflexivity.
Qed.

Lemma powerset_length_witness :
  List.length (powerset (@rev string) ["Harry"; "James"; "Lily"]) = 8%nat.
Proof.
  apply (powerset_length (@rev string) ["Harry"; "James"; "Lily"]).
  intros s. apply Permutation_sym, Permutation_rev.
Defined.

Lemma combinations_shape_witness :
  List.length ["Harry"; "Lily"] = 2%nat /\
  incl ["Harry"; "Lily"] ["Harry"; "James"; "Lily"] /\
  (NoDup ["Harry"; "James"; "Lily"] -> NoDup ["Harry"; "Lily"]).
Proof.
  apply (proj1 (combinations_shape ["Harry"; "James"; "Lily"]) 2%nat).
  simpl. right. left. reflexivity.
Defined.

Lemma StronglySorted_app {A} (R : A -> A -> Prop) (l1 l2 : list A) :
  StronglySorted R l1 -> StronglySorted R l2 ->
  (forall x y, In x l1 -> In y l2 -> R x y) ->
  StronglySorted R (l1 ++ l2).
Proof.
  induction l1 as [|a l1 IH]; intros H1 H2 H; [exact H2|].
  simpl. apply StronglySorted_inv in H1. destruct H1 as [H1 Ha].
  constructor.
  - apply IH; [exact H1|exact H2|].
    intros x y Hx Hy. apply H; [right; exact Hx|exact Hy].
  - apply Forall_app. split; [exact Ha|].
    apply Forall_forall. intros y Hy. apply H; [left; reflexivity|exact Hy].
Qed.

Lemma StronglySorted_all {A} (R : A -> A -> Prop) (l : list A) :
  (forall x y, In x l -> In y l -> R x y) -> StronglySorted R l.
Proof.
  induction l as [|a l IH]; intros H; constructor.
  - apply IH. intros x y Hx Hy. apply H; right; assumption.
  - apply Forall_forall. intros y Hy. apply H; [left; reflexivity|right; exact Hy].
Qed.

Lemma combinations_blocks_sorted (l : pyset) (k : nat) :
  forall a,
    StronglySorted no_larger (flat_map (combinations l) (seq a k)) /\
    forall c, In c (flat_map (combinations l) (seq a k)) ->
              (a <= List.length c)%nat.
Proof.
  induction k as [|k IH]; intros a; simpl.
  - split; [constructor|intros c []].
  - destruct (IH (S a)) as [Hs Hge]. split.
    + apply StronglySorted_app; [|exact Hs|].
      * apply StronglySorted_all. intros x y Hx Hy. unfold no_larger.
        rewrite (combinations_length l a x Hx), (combinations_length l a y Hy).
        lia.
      * intros x y Hx Hy. unfold no_larger.
        rewrite (combinations_length l a x Hx).
        pose proof (Hge y Hy). lia.
    + intros c Hc. apply in_app_or in Hc. destruct Hc as [Hc|Hc].
      * rewrite (combinations_length l a c Hc). lia.
      * pose proof (Hge c Hc). lia.
Qed.

(** X3. [powerset(s)] lists the subsets by increasing size: the empty set
    comes first, the whole set last, and no set is followed by a smaller
    one. *)
Theorem powerset_by_size (order : pyset -> list string) (s : pyset) :
  StronglySorted no_larger (powerset order s) /\
  hd_error (powerset order s) = Some [] /\
  last (powerset order s) [] = order s.
Proof.
  rewrite powerset_plist. unfold plist. split; [|split].
  - apply combinations_blocks_sorted.
  - replace (List.length (order s) + 1)%nat with (S (List.length (order s)))
      by lia.
    simpl. rewrite combinations_0. reflexivity.
  - replace (List.length (order s) + 1)%nat with (S (List.length (order s)))
      by lia.
    rewrite seq_S, flat_map_app. simpl.
    rewrite combinations_full, app_nil_r. apply last_last.
Qed.

Lemma subseqs_NoDup_member {A} (l c : list A) :
  NoDup l -> In c (subseqs l) -> NoDup c.
Proof.
  revert c. induction l as [|x l IH]; intros c Hnd Hin; simpl in Hin.
  - destruct Hin as [<-|[]]. constructor.
  - inversion Hnd as [|? ? Hx Hl]; subst.
    apply in_app_or in Hin. destruct Hin as [Hin|Hin]; [exact (IH c Hl Hin)|].
    apply in_map_iff in Hin. destruct Hin as [c' [<- Hc']].
    constructor; [|exact (IH c' Hl Hc')].
    intros H. apply Hx. exact (subseqs_incl l c' Hc' x H).
Qed.

Lemma subseqs_NoDup {A} (l : list A) : NoDup l -> NoDup (subseqs l).
Proof.
  induction l as [|x l IH]; intros Hnd; simpl.
  - constructor; [intros []|constructor].
  - inversion Hnd as [|? ? Hx Hl]; subst.
    apply NoDup_app.
    + exact (IH Hl).
    + pose proof (IH Hl) as Hsub. clear -Hsub.
      induction Hsub as [|c cs Hc _ IHs]; simpl; constructor; [|exact IHs].
      intros H. apply in_map_iff in H. destruct H as [c' [E Hc']].
      injection E as E. subst c'. exact (Hc Hc').
    + intros c Hc Hc'. apply in_map_iff in Hc'. destruct Hc' as [c' [<- _]].
      apply Hx. apply (subseqs_incl l _ Hc). left. reflexivity.
Qed.

Lemma subseqs_set_eq (l : pyset) :
  NoDup l -> forall c c', In c (subseqs l) -> In c' (subseqs l) ->
                          set_eq c c' -> c = c'.
Proof.
  induction l as [|x l IH]; intros Hnd c c' Hc Hc' E; simpl in Hc, Hc'.
  - destruct Hc as [<-|[]], Hc' as [<-|[]]. reflexivity.
  - inversion Hnd as [|? ? Hx Hl]; subst.
    assert (Hout : forall d, In d (subseqs l) -> set_in x d = false).
    { intros d Hd. apply set_in_false. intros H.
      apply Hx. exact (subseqs_incl l d Hd x H). }
    apply in_app_or in Hc, Hc'.
    destruct Hc as [Hc|Hc], Hc' as [Hc'|Hc'].
    + exact (IH Hl c c' Hc Hc' E).
    + apply in_map_iff in Hc'. destruct Hc' as [d' [<- Hd']].
      specialize (E x). rewrite (Hout c Hc), set_in_cons_same in E. discriminate.
    + apply in_map_iff in Hc. destruct Hc as [d [<- Hd]].
      specialize (E x). rewrite (Hout c' Hc'), set_in_cons_same in E. discriminate.
    + apply in_map_iff in Hc, Hc'.
      destruct Hc as [d [<- Hd]], Hc' as [d' [<- Hd']].
      f_equal. apply (IH Hl d d' Hd Hd').
      intros y. destruct (string_dec y x) as [->|Hy].
      * rewrite (Hout d Hd), (Hout d' Hd'). reflexivity.
      * specialize (E y).
        rewrite !(set_in_cons_other y x _ Hy) in E. exact E.
Qed.

(** X4. [powerset(s)] holds every subset of [s] exactly once: each member
    is a subset of [s], every subset of [s] is a member, no member occurs
    twice in the list, and two members with the same elements are the same
    member. *)
Theorem powerset_each_subset_once (order : pyset -> list string) (s : pyset) :
  order_ok order -> NoDup s ->
  (forall c, In c (powerset order s) -> incl c s /\ NoDup c) /\
  (forall c, incl c s -> exists c', In c' (powerset order s) /\ set_eq c c') /\
  NoDup (powerset order s) /\
  (forall c c', In c (powerset order s) -> In c' (powerset order s) ->
                set_eq c c' -> c = c').
Proof.
  intros Hord Hnd.
  assert (Hnd' : NoDup (order s))
    by (apply (Permutation_NoDup (Permutation_sym (Hord s))); exact Hnd).
  assert (Hmem : forall c, In c (powerset order s) <-> In c (subseqs (order s))).
  { intros c. rewrite powerset_plist. split; apply Permutation_in.
    - apply plist_subseqs.
    - apply Permutation_sym, plist_subseqs. }
  split; [|split; [|split]].
  - intros c Hc. split; [exact (powerset_incl order s c Hord Hc)|].
    apply Hmem in Hc. exact (subseqs_NoDup_member _ c Hnd' Hc).
  - intros c Hc. exists (filter (fun x => set_in x c) (order s)). split.
    + rewrite powerset_plist. apply filter_in_plist.
    + intros x. destruct (set_in x c) eqn:E; symmetry.
      * apply set_in_In, filter_In. split; [|exact E].
        apply (Permutation_in x (Permutation_sym (Hord s))).
        apply Hc. apply set_in_In. exact E.
      * apply set_in_false. intros H. apply filter_In in H. destruct H as [_ H].
        congruence.
  - rewrite powerset_plist.
    apply (Permutation_NoDup (Permutation_sym (plist_subseqs (order s)))).
    apply subseqs_NoDup. exact Hnd'.
  - intros c c' Hc Hc' E. apply Hmem in Hc, Hc'.
    exact (subseqs_set_eq (order s) Hnd' c c' Hc Hc' E).
Qed.

Lemma powerset_each_subset_once_witness :
  exists c', In c' (powerset (@rev string) ["Harry"; "James"; "Lily"]) /\
             set_eq ["Lily"; "Harry"] c'.
Proof.
  apply (proj1 (proj2 (powerset_each_subset_once (@rev string)
                         ["Harry"; "James"; "Lily"]
                         (fun s => Permutation_sym (Permutation_rev s))
                         ltac:(repeat constructor; simpl; intuition discriminate)))).
  intros x [<-|[<-|[]]]; simpl; tauto.
Defined.

(** ** [get_gene_numbers] *)

Lemma get_gene_numbers_keys {V} (people : Dict.t V) (one_gene two_genes : pyset) :
  Dict.keys (get_gene_numbers people one_gene two_genes) = Dict.keys people.
Proof.
  unfold get_gene_numbers, Dict.keys. rewrite map_map. apply map_ext.
  intros [k v]. reflexivity.
Qed.

(** X5. [get_gene_numbers] returns a dictionary with the keys of [people]
    in the same order.  Looking a name up in it succeeds exactly for the
    people, and gives 1 for a member of [one_gene], 2 for a member of
    [two_genes] that is not in [one_gene], and 0 otherwise: a name in both
    sets counts as one copy, and a name of the sets that is nobody's is
    ignored. *)
Theorem get_gene_numbers_lookup (people : Dict.t person)
  (one_gene two_genes : pyset) :
  Dict.keys (get_gene_numbers people one_gene two_genes) = Dict.keys people /\
  (forall n g,
     Dict.get (get_gene_numbers people one_gene two_genes) n = Ok g <->
     In n (Dict.keys people) /\
     ((In n one_gene /\ g = 1%nat) \/
      (~ In n one_gene /\ In n two_genes /\ g = 2%nat) \/
      (~ In n one_gene /\ ~ In n two_genes /\ g = 0%nat))) /\
  (forall n, ~ In n (Dict.keys people) ->
             Dict.get (get_gene_numbers people one_gene two_genes) n
             = Raise "KeyError").
Proof.
  split; [apply get_gene_numbers_keys|]. split.
  - intros n g. destruct (in_dec string_dec n (Dict.keys people)) as [Hin|Hout].
    + rewrite (get_gene_numbers_get people one_gene two_genes n Hin).
      unfold gene_number.
      destruct (set_in n one_gene) eqn:E1; [|destruct (set_in n two_genes) eqn:E2].
      * apply set_in_In in E1. split.
        -- intros H. injection H as <-. tauto.
        -- intros [_ [[_ ->]|[[H _]|[H _]]]]; [reflexivity|contradiction..].
      * apply set_in_false in E1. apply set_in_In in E2. split.
        -- intros H. injection H as <-. tauto.
        -- intros [_ [[H _]|[[_ [_ ->]]|[_ [H _]]]]];
             [contradiction|reflexivity|contradiction].
      * apply set_in_false in E1, E2. split.
        -- intros H. injection H as <-. tauto.
        -- intros [_ [[H _]|[[_ [H _]]|[_ [_ ->]]]]];
             [contradiction|contradiction|reflexivity].
    + rewrite (get_gene_numbers_missing people one_gene two_genes n Hout).
      split; [discriminate|tauto].
  - intros n Hout. exact (get_gene_numbers_missing people one_gene two_genes n Hout).
Qed.

Lemma get_gene_numbers_lookup_witness :
  Dict.get (get_gene_numbers family0 ["Harry"] ["James"]) "Voldemort"
  = Raise "KeyError".
Proof.
  apply (proj2 (proj2 (get_gene_numbers_lookup family0 ["Harry"] ["James"]))).
  simpl. intuition discriminate.
Defined.

(** ** The inheritance table *)

Lemma Qc_lt_of_sum (a b : Qc) : 0 < b -> a < a + b.
Proof.
  intros Hb. apply Qclt_minus_iff.
  replace (a + b + - a) with b by ring. exact Hb.
Qed.

(** X6. Whatever the gene counts of the mother and the father, the three
    chances [joint_probability] computes for the child having no, one or
    two copies are positive, below 1, add up to exactly 1, and stay the
    same when mother and father are swapped. *)
Theorem inherit_prob_distribution (mother_gene father_gene : nat) :
  (forall g, 0 < inherit_prob mother_gene father_gene g /\
             inherit_prob mother_gene father_gene g < 1) /\
  inherit_prob mother_gene father_gene 0
  + inherit_prob mother_gene father_gene 1
  + inherit_prob mother_gene father_gene 2 = 1 /\
  (forall g, inherit_prob mother_gene father_gene g
             = inherit_prob father_gene mother_gene g).
Proof.
  pose proof (inherit_prob_sum mother_gene father_gene) as Hsum.
  pose proof (inherit_prob_pos mother_gene father_gene 0) as H0.
  pose proof (inherit_prob_pos mother_gene father_gene 1) as H1.
  pose proof (inherit_prob_pos mother_gene father_gene 2) as H2.
  split; [|split].
  - intros g. split; [apply inherit_prob_pos|].
    rewrite <- Hsum.
    destruct g as [|[|g]].
    + replace (inherit_prob mother_gene father_gene 0
               + inherit_prob mother_gene father_gene 1
               + inherit_prob mother_gene father_gene 2)
        with (inherit_prob mother_gene father_gene 0
              + (inherit_prob mother_gene father_gene 1
                 + inherit_prob mother_gene father_gene 2)) by ring.
      apply Qc_lt_of_sum. apply Qc_add_pos; [exact H1|apply Qclt_le_weak, H2].
    + replace (inherit_prob mother_gene father_gene 0
               + inherit_prob mother_gene father_gene 1
               + inherit_prob mother_gene father_gene 2)
        with (inherit_prob mother_gene father_gene 1
              + (inherit_prob mother_gene father_gene 0
                 + inherit_prob mother_gene father_gene 2)) by ring.
      apply Qc_lt_of_sum. apply Qc_add_pos; [exact H0|apply Qclt_le_weak, H2].
    + change (inherit_prob mother_gene father_gene (S (S g)))
        with (inherit_prob mother_gene father_gene 2).
      replace (inherit_prob mother_gene father_gene 0
               + inherit_prob mother_gene father_gene 1
               + inherit_prob mother_gene father_gene 2)
        with (inherit_prob mother_gene father_gene 2
              + (inherit_prob mother_gene father_gene 0
                 + inherit_prob mother_gene father_gene 1)) by ring.
      apply Qc_lt_of_sum. apply Qc_add_pos; [exact H0|apply Qclt_le_weak, H1].
  - exact Hsum.
  - intros g. unfold inherit_prob. destruct g as [|[|g]]; ring.
Qed.

(** ** [load_data] *)

Lemma set_keys_new {V} (d : Dict.t V) (k : string) (v : V) :
  ~ In k (Dict.keys d) -> Dict.set d k v = d ++ [(k, v)].
Proof.
  induction d as [|[k' v'] d IH]; intros H; simpl; [reflexivity|].
  destruct (String.eqb k k') eqn:E.
  - apply String.eqb_eq in E. subst. exfalso. apply H. left. reflexivity.
  - rewrite IH; [reflexivity|]. intros Hin. apply H. right. exact Hin.
Qed.

Lemma set_keys_old {V} (d : Dict.t V) (k : string) (v : V) :
  In k (Dict.keys d) -> Dict.keys (Dict.set d k v) = Dict.keys d.
Proof.
  induction d as [|[k' v'] d IH]; intros H; [destruct H|].
  simpl. destruct (String.eqb k k') eqn:E; [reflexivity|].
  simpl. f_equal. apply IH. destruct H as [H|H]; [|exact H].
  simpl in H. subst. rewrite String.eqb_refl in E. discriminate.
Qed.

Lemma load_data_keys_In (rows : list csv_row) (k : string) :
  In k (Dict.keys (load_data rows)) <-> In k (map row_name rows).
Proof.
  induction rows as [|r rows IH] using rev_ind; [simpl; tauto|].
  rewrite load_data_snoc, set_keys_In, IH, map_app, in_app_iff. simpl.
  split.
  - intros [H|H]; [right; left; symmetry; exact H|left; exact H].
  - intros [H|[H|[]]]; [right; exact H|left; symmetry; exact H].
Qed.

Lemma load_data_distinct (rows : list csv_row) :
  NoDup (map row_name rows) ->
  load_data rows = map (fun r => (row_name r, person_of_row r)) rows.
Proof.
  induction rows as [|r rows IH] using rev_ind; intros Hnd; [reflexivity|].
  rewrite map_app in Hnd. simpl in Hnd.
  rewrite load_data_snoc, IH by (exact (NoDup_app_remove_r _ _ Hnd)).
  rewrite set_keys_new.
  - rewrite map_app. reflexivity.
  - rewrite <- IH by (exact (NoDup_app_remove_r _ _ Hnd)).
    rewrite load_data_keys_In. intros H.
    apply (NoDup_remove_2 _ _ _ Hnd). rewrite app_nil_r. exact H.
Qed.

(** X7. The dictionary [load_data] builds never holds a name twice, and
    its names are exactly the names of the rows.  A row whose name came
    before replaces the earlier entry and leaves the order of the names
    as it was; a row with a new name goes last.  So a name maps to the
    last row that bears it, and a file without a repeated name is loaded
    row for row, in the order of the file. *)
Theorem load_data_dictionary (rows : list csv_row) :
  NoDup (Dict.keys (load_data rows)) /\
  (forall k, In k (Dict.keys (load_data rows)) <->
             exists r, In r rows /\ row_name r = k) /\
  (forall r,
     Dict.keys (load_data (rows ++ [r]))
     = if Dict.mem (load_data rows) (row_name r)
       then Dict.keys (load_data rows)
       else Dict.keys (load_data rows) ++ [row_name r]) /\
  (forall A r B, rows = A ++ r :: B ->
     (forall r', In r' B -> row_name r' <> row_name r) ->
     Dict.get (load_data rows) (row_name r) = Ok (person_of_row r)) /\
  (NoDup (map row_name rows) ->
   load_data rows = map (fun r => (row_name r, person_of_row r)) rows).
Proof.
  split; [apply load_data_wf|]. split; [|split; [|split]].
  - intros k. rewrite load_data_keys_In, in_map_iff.
    split; intros [r [H1 H2]]; exists r; split; assumption.
  - intros r. rewrite load_data_snoc.
    destruct (Dict.mem (load_data rows) (row_name r)) eqn:E.
    + apply set_keys_old. apply mem_In. exact E.
    + rewrite set_keys_new.
      * unfold Dict.keys. rewrite map_app. reflexivity.
      * intros H. apply mem_In in H. congruence.
  - intros A r B -> H. exact (load_data_last_wins A B r H).
  - apply load_data_distinct.
Qed.

Lemma load_data_dictionary_witness :
  Dict.get (load_data rows_repeated) "Harry"
  = Ok (mkPerson "Harry" None None (Some true)) /\
  load_data family0_rows
  = map (fun r => (row_name r, person_of_row r)) family0_rows.
Proof.
  split.
  - apply (proj1 (proj2 (proj2 (proj2 (load_data_dictionary rows_repeated))))
             [mkRow "Harry" "" "" "0"; mkRow "Lily" "" "" ""]
             (mkRow "Harry" "" "" "1") []); [reflexivity|].
    intros r' [].
  - apply (proj2 (proj2 (proj2 (proj2 (load_data_dictionary family0_rows))))).
    repeat constructor; simpl; intuition discriminate.
Defined.

(** ** What [joint_probability] does on every input *)

Lemma resolves_false_dangling (people : Dict.t person) (e : string * person) :
  resolves people e = false <-> dangling people e.
Proof.
  unfold resolves, dangling. split.
  - destruct (mother (snd e)) as [m|]; [|discriminate].
    intros H. exists m. split; [reflexivity|].
    destruct (father (snd e)) as [f|]; [|right; left; reflexivity].
    apply andb_false_iff in H. destruct H as [H|H].
    + left. intros Hin. apply mem_In in Hin. congruence.
    + right. right. exists f. split; [reflexivity|].
      intros Hin. apply mem_In in Hin. congruence.
  - intros [m [Hm H]]. rewrite Hm.
    destruct H as [H|[H|[f [Hf H]]]].
    + destruct (father (snd e)); [|reflexivity].
      apply andb_false_iff. left.
      destruct (Dict.mem people m) eqn:E; [|reflexivity].
      apply mem_In in E. contradiction.
    + rewrite H. reflexivity.
    + rewrite Hf. apply andb_false_iff. right.
      destruct (Dict.mem people f) eqn:E; [|reflexivity].
      apply mem_In in E. contradiction.
Qed.

Lemma forallb_resolves_dangling (people : Dict.t person) :
  forallb (resolves people) people = false <->
  exists e, In e people /\ dangling people e.
Proof.
  split.
  - intros H.
    assert (Hex : exists e, In e people /\ resolves people e = false).
    { revert H. generalize people at 2 3. intros l.
      induction l as [|a l IH]; simpl; [discriminate|].
      destruct (resolves people a) eqn:Ea; simpl.
      - intros H. destruct (IH H) as [e [He Hr]]. exists e. split; [right|]; assumption.
      - intros _. exists a. split; [left; reflexivity|exact Ea]. }
    destruct Hex as [e [He Hr]]. exists e. split; [exact He|].
    apply resolves_false_dangling. exact Hr.
  - intros [e [He Hd]]. apply resolves_false_dangling in Hd.
    destruct (forallb (resolves people) people) eqn:E; [|reflexivity].
    rewrite forallb_forall in E. rewrite (E e He) in Hd. discriminate.
Qed.

(** X8. What [joint_probability] does depends on the pedigree alone, not
    on the hypothesis.  It raises [KeyError] exactly when some person has
    a mother and one of the two parent links cannot be followed; a father
    given without a mother is never looked at.  It raises [TypeError]
    exactly when there is nobody.  In every other case it returns the
    product of one factor for each person. *)
Theorem joint_probability_outcome (people : Dict.t person)
  (one_gene two_genes have_trait : pyset) :
  (joint_probability people one_gene two_genes have_trait = Raise "KeyError"
   <-> exists e, In e people /\ dangling people e) /\
  (joint_probability people one_gene two_genes have_trait = Raise "TypeError"
   <-> people = []) /\
  (joint_probability people one_gene two_genes have_trait
   = Ok (weight people (one_gene, two_genes, have_trait))
   <-> people <> [] /\ forall e, In e people -> ~ dangling people e).
Proof.
  rewrite joint_probability_cases.
  destruct (forallb (resolves people) people) eqn:E.
  - assert (Hno : forall e, In e people -> ~ dangling people e).
    { intros e He Hd. rewrite forallb_forall in E.
      apply resolves_false_dangling in Hd. rewrite (E e He) in Hd. discriminate. }
    destruct people as [|e0 people].
    + split; [|split].
      * split; [discriminate|]. intros [e [[] _]].
      * split; reflexivity.
      * split; [discriminate|]. intros [H _]. congruence.
    + split; [|split].
      * split; [discriminate|]. intros [e [He Hd]]. destruct (Hno e He Hd).
      * split; discriminate.
      * split; [|reflexivity]. intros _. split; [discriminate|exact Hno].
  - pose proof (proj1 (forallb_resolves_dangling people) E) as [e [He Hd]].
    split; [|split].
    + split; [|reflexivity]. intros _. exists e. split; assumption.
    + split; [discriminate|]. intros ->. destruct He.
    + split; [discriminate|]. intros [_ H]. destruct (H e He Hd).
Qed.

Lemma joint_probability_outcome_witness :
  joint_probability (load_data rows_dangling) [] [] [] = Raise "KeyError".
Proof.
  apply (proj2 (proj1 (joint_probability_outcome (load_data rows_dangling)
                         [] [] []))).
  exists ("Harry", mkPerson "Harry" (Some "Lily") (Some "James") None).
  split; [left; reflexivity|].
  exists "Lily". split; [reflexivity|].
  left. simpl. intuition discriminate.
Defined.

Lemma Qc_mul_le_1 (a b : Qc) : a <= 1 -> 0 <= b -> b <= 1 -> a * b <= 1.
Proof.
  intros Ha Hb0 Hb1. apply Qcle_trans with b; [|exact Hb1].
  rewrite <- (Qcmult_1_l b) at 2. apply Qcmult_le_compat_r; assumption.
Qed.

Lemma inherit_prob_le_1 (mg fg g : nat) : inherit_prob mg fg g <= 1.
Proof.
  pose proof (inherit_prob_sum mg fg) as Hsum.
  pose proof (Qclt_le_weak _ _ (inherit_prob_pos mg fg 0)) as H0.
  pose proof (Qclt_le_weak _ _ (inherit_prob_pos mg fg 1)) as H1.
  pose proof (Qclt_le_weak _ _ (inherit_prob_pos mg fg 2)) as H2.
  assert (Hadd : forall a b, 0 <= b -> a <= a + b).
  { intros a b Hb. rewrite <- (Qcplus_0_r a) at 1.
    apply Qcplus_le_compat; [apply Qcle_refl|exact Hb]. }
  assert (Hpos : forall a b, 0 <= a -> 0 <= b -> 0 <= a + b).
  { intros a b Ha Hb. apply Qcle_trans with a; [exact Ha|apply Hadd; exact Hb]. }
  rewrite <- Hsum. destruct g as [|[|g]].
  - replace (inherit_prob mg fg 0 + inherit_prob mg fg 1 + inherit_prob mg fg 2)
      with (inherit_prob mg fg 0 + (inherit_prob mg fg 1 + inherit_prob mg fg 2))
      by ring.
    apply Hadd. apply Hpos; assumption.
  - replace (inherit_prob mg fg 0 + inherit_prob mg fg 1 + inherit_prob mg fg 2)
      with (inherit_prob mg fg 1 + (inherit_prob mg fg 0 + inherit_prob mg fg 2))
      by ring.
    apply Hadd. apply Hpos; assumption.
  - change (inherit_prob mg fg (S (S g))) with (inherit_prob mg fg 2).
    replace (inherit_prob mg fg 0 + inherit_prob mg fg 1 + inherit_prob mg fg 2)
      with (inherit_prob mg fg 2 + (inherit_prob mg fg 0 + inherit_prob mg fg 1))
      by ring.
    apply Hadd. apply Hpos; assumption.
Qed.

Lemma GenePrior_le_1 (g : nat) : Spec.GenePrior g <= 1.
Proof. destruct g as [|[|g]]; intros H; discriminate. Qed.

Lemma TraitGivenGene_le_1 (g : nat) (t : bool) : Spec.TraitGivenGene g t <= 1.
Proof. destruct g as [|[|g]], t; intros H; discriminate. Qed.

Lemma factor_le_1 (h : hypothesis) (e : string * person) : factor h e <= 1.
Proof.
  rewrite factor_gene_law. apply Qc_mul_le_1.
  - unfold gene_law. destruct (mother (snd e)), (father (snd e));
      try apply GenePrior_le_1. apply inherit_prob_le_1.
  - apply Qclt_le_weak, TraitGivenGene_pos.
  - apply TraitGivenGene_le_1.
Qed.

Lemma product_le_1 (l : list Qc) :
  (forall x, In x l -> 0 < x /\ x <= 1) -> Spec.product l <= 1.
Proof.
  induction l as [|x l IH]; intros H.
  - apply Qcle_refl.
  - rewrite product_cons. apply Qc_mul_le_1.
    + apply H. left. reflexivity.
    + apply Qclt_le_weak, product_pos. intros y Hy. apply H. right. exact Hy.
    + apply IH. intros y Hy. apply H. right. exact Hy.
Qed.

Lemma weight_le_1 (people : Dict.t person) (h : hypothesis) :
  weight people h <= 1.
Proof.
  unfold weight. apply product_le_1. intros x Hx.
  apply in_map_iff in Hx. destruct Hx as [e [<- _]].
  split; [apply factor_pos|apply factor_le_1].
Qed.

(** *** Underflow in binary64 arithmetic *)

Lemma founders_roots (n : nat) (e : string * person) :
  In e (founders n) -> mother (snd e) = None.
Proof.
  intros He. apply in_map_iff in He. destruct He as [i [<- _]]. reflexivity.
Qed.

Lemma fold_left_mul_zero (c : float) (n : nat) :
  PrimFloat.mul 0 c = 0%float ->
  fold_left PrimFloat.mul (repeat c n) 0%float = 0%float.
Proof.
  intros H. induction n as [|n IH]; [reflexivity|].
  cbn [repeat fold_left]. rewrite H. exact IH.
Qed.

Lemma binary64_founders (people : Dict.t person) (e : string * person) :
  (forall e', In e' (e :: people) -> mother (snd e') = None) ->
  Binary64.joint_probability (e :: people) [] (Dict.keys (e :: people)) []
  = Ok (fold_left PrimFloat.mul
          (repeat (0.01 * 0.35)%float (List.length people))
          (0.01 * 0.35)%float).
Proof.
  intros Hroot. unfold Binary64.joint_probability.
  set (P := e :: people) in *.
  assert (Hall : filter (fun e' => is_None (mother (snd e'))) P = P).
  { apply forallb_filter_id. apply forallb_forall. intros e' He'.
    rewrite (Hroot e' He'). reflexivity. }
  assert (Hnone : filter (fun e' => negb (is_None (mother (snd e')))) P = []).
  { clear Hall. induction P as [|a P IH]; [reflexivity|].
    cbn [filter]. rewrite (Hroot a (or_introl eq_refl)). cbn [is_None negb].
    apply IH. intros e' He'. apply Hroot. right. exact He'. }
  rewrite Hall, Hnone.
  rewrite (mapM_Ok_map _ (fun _ => (0.01 * 0.35)%float)).
  - cbn [bind mapM]. rewrite app_nil_r. unfold P. cbn [map Binary64.reduce_mul].
    f_equal. f_equal. clear. induction people as [|a l IH]; [reflexivity|].
    cbn [map List.length repeat]. rewrite IH. reflexivity.
  - intros a Ha. unfold Binary64.root_prob.
    rewrite get_gene_numbers_get by (apply in_map; exact Ha).
    unfold gene_number. cbn [set_in existsb].
    assert (Hin : set_in (fst a) (Dict.keys P) = true).
    { apply existsb_exists. exists (fst a). split; [apply in_map; exact Ha|].
      apply String.eqb_refl. }
    rewrite Hin. reflexivity.
Qed.

(** X9. The product [joint_probability] forms can underflow.  For people
    without a recorded mother, all taken to carry two copies of the gene
    and not to show the trait, every factor is 0.01 * 0.35: with 131
    people the code returns 38 times the smallest positive float, and with
    132 people or more it returns exactly 0.0, although the exact product
    is positive. *)
Theorem joint_probability_underflows (people : Dict.t person) :
  (forall e, In e people -> mother (snd e) = None) ->
  (131 <= List.length people)%nat ->
  Binary64.joint_probability people [] (Dict.keys people) []
  = Ok (if (List.length people =? 131)%nat
        then 1.8774494541967369e-322%float else 0%float) /\
  exists q, joint_probability people [] (Dict.keys people) [] = Ok q /\
            (0 < q)%Qc.
Proof.
  intros Hroot Hlen. split.
  - destruct people as [|e people]; [simpl in Hlen; lia|].
    rewrite (binary64_founders people e Hroot). f_equal.
    cbn [List.length] in *.
    replace (List.length people) with (130 + (List.length people - 130))%nat
      by lia.
    rewrite repeat_app, fold_left_app.
    replace (fold_left PrimFloat.mul (repeat (0.01 * 0.35)%float 130)
               (0.01 * 0.35)%float)
      with 1.8774494541967369e-322%float by (vm_compute; reflexivity).
    destruct (List.length people - 130)%nat as [|k] eqn:Hk.
    + replace (S (130 + 0) =? 131)%nat with true by reflexivity. reflexivity.
    + replace (S (130 + S k) =? 131)%nat with false
        by (symmetry; apply Nat.eqb_neq; lia).
      cbn [repeat fold_left].
      replace (1.8774494541967369e-322 * (0.01 * 0.35))%float with 0%float
        by (vm_compute; reflexivity).
      apply fold_left_mul_zero. vm_compute. reflexivity.
  - rewrite joint_probability_cases.
    replace (forallb (resolves people) people) with true.
    + destruct people as [|e people]; [simpl in Hlen; lia|].
      eexists. split; [reflexivity|apply weight_pos].
    + symmetry. apply forallb_forall. intros e He. unfold resolves.
      rewrite (Hroot e He). reflexivity.
Qed.

Lemma joint_probability_underflows_witness :
  Binary64.joint_probability (founders 132) [] (Dict.keys (founders 132)) []
  = Ok 0%float.
Proof.
  apply (proj1 (joint_probability_underflows (founders 132)
                  (founders_roots 132)
                  (proj1 (Nat.leb_le 131 (List.length (founders 132)))
                         eq_refl))).
Defined.

(** ** [update] and [normalize] as operations on the accumulator *)












(** ** What inference returns, and when it raises *)







Lemma not_dangling_resolves (people : Dict.t person) :
  (forall e, In e people -> ~ dangling people e) ->
  forallb (resolves people) people = true.
Proof.
  intros H. destruct (forallb (resolves people) people) eqn:E; [reflexivity|].
  apply forallb_resolves_dangling in E. destruct E as [e [He Hd]].
  destruct (H e He Hd).
Qed.



Lemma load_data_nil (rows : list csv_row) : load_data rows = [] <-> rows = [].
Proof.
  split; [|intros ->; reflexivity].
  intros H. destruct rows as [|r rows]; [reflexivity|].
  assert (Hin : In (row_name r) (Dict.keys (load_data (r :: rows))))
    by (apply load_data_keys_In; left; reflexivity).
  rewrite H in Hin. destruct Hin.
Qed.

(** X14. Inference fails in two ways only.  It raises [KeyError] exactly
    when some person has a mother and one of the two parent links cannot
    be followed, and [TypeError] exactly when the pedigree is empty, which
    for [main] means a file without rows.  It never raises
    [ZeroDivisionError]. *)
Theorem infer_failures (order : pyset -> list string) (people : Dict.t person) :
  order_ok order ->
  (infer order people = Raise "KeyError"
   <-> exists e, In e people /\ dangling people e) /\
  (infer order people = Raise "TypeError" <-> people = []) /\
  (forall rows, main order rows = Raise "TypeError" <-> rows = []) /\
  (forall e, infer order people = Raise e -> e = "KeyError" \/ e = "TypeError").
Proof.
  intros Hord.
  assert (Hcases :
            (people = [] /\ infer order people = Raise "TypeError") \/
            ((exists e, In e people /\ dangling people e) /\
             infer order people = Raise "KeyError") \/
            (people <> [] /\ (forall e, In e people -> ~ dangling people e) /\
             exists probabilities, infer order people = Ok probabilities)).
  { pose proof (joint_probability_cases people) as Hjp.
    destruct (forallb (resolves people) people) eqn:E.
    - destruct people as [|e0 people].
      + left. split; [reflexivity|]. unfold infer.
        rewrite (enumerate_Raise order [] "TypeError" Hord Hjp). reflexivity.
      + right. right. split; [discriminate|].
        assert (Hno : forall e, In e (e0 :: people) -> ~ dangling (e0 :: people) e).
        { intros e He Hd. rewrite forallb_forall in E.
          apply resolves_false_dangling in Hd. rewrite (E e He) in Hd.
          discriminate. }
        split; [exact Hno|].
        destruct (infer_Ok order (e0 :: people) Hord) as [_ Hinf];
          [discriminate|exact E|].
        eexists. exact Hinf.
    - right. left. split; [apply forallb_resolves_dangling; exact E|].
      unfold infer.
      rewrite (enumerate_Raise order people "KeyError" Hord Hjp). reflexivity. }
  assert (Hkey : infer order people = Raise "KeyError"
                 <-> exists e, In e people /\ dangling people e).
  { destruct Hcases as [[Hp Hi]|[[Hd Hi]|[Hp [Hno [probs Hi]]]]]; rewrite Hi.
    - split; [discriminate|]. subst people. intros [e [[] _]].
    - split; [intros _; exact Hd|reflexivity].
    - split; [discriminate|]. intros [e [He Hd]]. destruct (Hno e He Hd). }
  assert (Htype : forall people', order_ok order ->
            (people' = [] -> infer order people' = Raise "TypeError")).
  { intros people' _ ->. unfold infer.
    rewrite (enumerate_Raise order [] "TypeError" Hord); [reflexivity|].
    intros og tg ht. reflexivity. }
  assert (Hty : infer order people = Raise "TypeError" <-> people = []).
  { destruct Hcases as [[Hp Hi]|[[Hd Hi]|[Hp [Hno [probs Hi]]]]]; rewrite Hi.
    - split; [intros _; exact Hp|reflexivity].
    - split; [discriminate|]. intros ->. destruct Hd as [e [[] _]].
    - split; [discriminate|]. intros H. contradiction. }
  split; [exact Hkey|]. split; [exact Hty|]. split.
  - intros rows. unfold main. rewrite <- load_data_nil. split.
    + intros H.
      pose proof (joint_probability_cases (load_data rows)) as Hjp.
      destruct (forallb (resolves (load_data rows)) (load_data rows)) eqn:E.
      * destruct (load_data rows) as [|e0 l] eqn:El; [reflexivity|].
        destruct (infer_Ok order (e0 :: l) Hord) as [_ Hinf];
          [discriminate|exact E|].
        rewrite Hinf in H. discriminate.
      * unfold infer in H.
        rewrite (enumerate_Raise order _ "KeyError" Hord Hjp) in H.
        discriminate.
    + intros H. apply Htype; assumption.
  - intros e He.
    destruct Hcases as [[Hp Hi]|[[Hd Hi]|[Hp [Hno [probs Hi]]]]];
      rewrite Hi in He; inversion He; auto.
Qed.

Lemma infer_failures_witness :
  infer (fun s => s) (load_data rows_one_parent) = Raise "KeyError".
Proof.
  apply (proj2 (proj1 (infer_failures (fun s => s) (load_data rows_one_parent)
                         (fun s => Permutation_refl s)))).
  exists ("Harry", mkPerson "Harry" (Some "Lily") None None).
  split; [right; left; reflexivity|].
  exists "Lily". split; [reflexivity|]. right. left. reflexivity.
Defined.

(** ** The evidence check and what it does to the result *)

(** X15. The check at the head of the loop never raises, and it rejects a
    trait set exactly when some person of the file has a known trait that
    the set contradicts: it is known to show the trait and is not in the
    set, or known not to show it and is in the set. *)
Theorem fails_evidence_rejects (order : pyset -> list string)
  (people : Dict.t person) (have_trait : pyset) :
  order_ok order ->
  exists fails,
    fails_evidence order people (Dict.keys people) have_trait = Ok fails /\
    (fails = true <->
     exists person p t,
       Dict.get people person = Ok p /\ trait p = Some t /\
       set_in person have_trait <> t).
Proof.
  intros Hord.
  rewrite fails_evidence_existsb
    by (intros y Hy; exact (Permutation_in y (Hord _) Hy)).
  eexists. split; [reflexivity|].
  rewrite existsb_exists. split.
  - intros [person [_ Hv]]. unfold violates in Hv.
    destruct (Dict.get people person) as [p|] eqn:Hg; [|discriminate].
    destruct (trait p) as [t|] eqn:Ht; [|discriminate].
    exists person, p, t. split; [exact Hg|]. split; [exact Ht|].
    apply negb_true_iff, Bool.eqb_false_iff in Hv. congruence.
  - intros [person [p [t [Hg [Ht Hne]]]]]. exists person. split.
    + apply (Permutation_in person (Permutation_sym (Hord _))).
      apply get_Ok_In in Hg. apply (in_map fst) in Hg. exact Hg.
    + unfold violates. rewrite Hg, Ht.
      apply negb_true_iff, Bool.eqb_false_iff. congruence.
Qed.

Lemma fails_evidence_rejects_witness :
  exists fails,
    fails_evidence (@rev string) family0 (Dict.keys family0) ["Lily"] = Ok fails /\
    (fails = true <->
     exists person p t,
       Dict.get family0 person = Ok p /\ trait p = Some t /\
       set_in person ["Lily"] <> t).
Proof.
  apply (fails_evidence_rejects (@rev string) family0 ["Lily"]).
  intros s. apply Permutation_sym, Permutation_rev.
Defined.

Lemma qsum_all_zero {A} (f : A -> Qc) (l : list A) :
  (forall a, In a l -> f a = 0) -> qsum f l = 0.
Proof.
  intros H. rewrite (qsum_ext f (fun _ => 0) l H). apply qsum_zero.
Qed.

(** X16. Evidence is taken at its word: in the table inference returns, a
    person whose trait is given in the file has the trait distribution
    that puts 1 on the given value and 0 on the other. *)
Theorem observed_trait_is_certain (order : pyset -> list string)
  (people : Dict.t person) (who : string) (p : person) (t : bool) :
  order_ok order ->
  (forall e, In e people -> ~ dangling people e) ->
  Dict.get people who = Ok p -> trait p = Some t ->
  exists probabilities m,
    infer order people = Ok probabilities /\
    Dict.get probabilities who = Ok m /\
    trait_d m = certain t.
Proof.
  intros Hord Hno Hg Ht.
  pose proof (get_Ok_In people who p Hg) as Hin.
  assert (Hne : people <> []) by (intros E; rewrite E in Hin; destruct Hin).
  destruct (infer_Ok order people Hord Hne (not_dangling_resolves people Hno))
    as [Hpos Hinf].
  set (hyps := hypotheses order people) in *.
  assert (Hval : forall h, In h hyps -> trait_of h who = t).
  { intros [[og tg] ht] Hh.
    pose proof (hypotheses_valid order people (og, tg, ht) Hord Hh) as Hv.
    destruct Hv as [_ [_ [_ [_ Hev]]]]. exact (Hev who p t Hg Ht). }
  assert (HZ : qsum (weight people) hyps <> 0)
    by (apply not_eq_sym, Qclt_not_eq; exact Hpos).
  assert (Hdiv : forall z : Qc, z <> 0 -> z / z = 1 /\ 0 / z = 0)
    by (intros z Hz; split; field; exact Hz).
  destruct (Hdiv _ HZ) as [H1 H0].
  eexists. eexists. split; [exact Hinf|]. split.
  - apply (get_map_key (fun n => normalized (tally (weight people) hyps n))).
    apply (in_map fst) in Hin. exact Hin.
  - unfold normalized. cbn [trait_d]. rewrite tally_trait_total.
    unfold tally. cbn [trait_d traitT traitF].
    destruct t; unfold certain.
    + rewrite (qsum_all_zero (fun h => ind (negb (trait_of h who))
                                           (weight people h)))
        by (intros h Hh; rewrite (Hval h Hh); reflexivity).
      rewrite (qsum_ext (fun h => ind (trait_of h who) (weight people h))
                 (weight people))
        by (intros h Hh; rewrite (Hval h Hh); reflexivity).
      rewrite H1, H0. reflexivity.
    + rewrite (qsum_all_zero (fun h => ind (trait_of h who)
                                           (weight people h)))
        by (intros h Hh; rewrite (Hval h Hh); reflexivity).
      rewrite (qsum_ext (fun h => ind (negb (trait_of h who))
                                      (weight people h))
                 (weight people))
        by (intros h Hh; rewrite (Hval h Hh); reflexivity).
      rewrite H1, H0. reflexivity.
Qed.

Lemma observed_trait_is_certain_witness :
  exists probabilities m,
    infer (fun s => s) family0 = Ok probabilities /\
    Dict.get probabilities "James" = Ok m /\
    trait_d m = certain true.
Proof.
  apply (observed_trait_is_certain (fun s => s) family0 "James"
           (mkPerson "James" None None (Some true)) true).
  - intros s. apply Permutation_refl.
  - intros e He Hd. apply resolves_false_dangling in Hd.
    vm_compute in He. destruct He as [<-|[<-|[<-|[]]]]; vm_compute in Hd;
      discriminate.
  - reflexivity.
  - reflexivity.
Defined.

(** ** A pedigree without evidence *)


Lemma consistent_no_evidence (people : Dict.t person) (have_trait : pyset) :
  (forall e, In e people -> trait (snd e) = None) ->
  consistent people have_trait = true.
Proof.
  intros H. unfold consistent. apply negb_true_iff.
  destruct (existsb (violates people have_trait) (Dict.keys people)) eqn:E;
    [|reflexivity].
  apply existsb_exists in E. destruct E as [n [_ Hv]]. unfold violates in Hv.
  destruct (Dict.get people n) as [p|] eqn:Hg; [|discriminate].
  apply get_Ok_In in Hg. pose proof (H (n, p) Hg) as Hn. cbn [snd] in Hn.
  rewrite Hn in Hv. discriminate.
Qed.






(** ** What the loop leaves in the accumulator, and how long it runs *)

(** X18. The loop marginalizes.  On a pedigree with at least one person
    in which every parent link can be followed, it returns an accumulator
    over the same people in which each bucket of a person holds the sum of
    the joint probabilities of the hypotheses that passed the evidence
    check and give that person the value of the bucket. *)
Theorem enumerate_marginalizes (order : pyset -> list string)
  (people : Dict.t person) :
  order_ok order -> people <> [] ->
  (forall e, In e people -> ~ dangling people e) ->
  exists probabilities,
    enumerate order people = Ok probabilities /\
    Dict.keys probabilities = Dict.keys people /\
    forall n, In n (Dict.keys people) ->
      exists m,
        Dict.get probabilities n = Ok m /\
        let hyps := hypotheses order people in
        let p := weight people in
        gene2 (gene m)
        = qsum (fun h => if Nat.eqb (gene_of h n) 2 then p h else 0) hyps /\
        gene1 (gene m)
        = qsum (fun h => if Nat.eqb (gene_of h n) 1 then p h else 0) hyps /\
        gene0 (gene m)
        = qsum (fun h => if Nat.eqb (gene_of h n) 0 then p h else 0) hyps /\
        traitT (trait_d m)
        = qsum (fun h => if trait_of h n then p h else 0) hyps /\
        traitF (trait_d m)
        = qsum (fun h => if trait_of h n then 0 else p h) hyps.
Proof.
  intros Hord Hne Hno.
  pose proof (not_dangling_resolves people Hno) as Hres.
  assert (Hjp : forall og tg ht,
             joint_probability people og tg ht = Ok (weight people (og, tg, ht))).
  { intros og tg ht. rewrite joint_probability_cases, Hres.
    destruct people; [congruence|reflexivity]. }
  eexists. split; [exact (enumerate_tally order people _ Hord Hjp)|]. split.
  - unfold Dict.keys. rewrite map_map. reflexivity.
  - intros n Hn.
    exists (tally (weight people) (hypotheses order people) n). split.
    + exact (get_map_key
               (fun n => tally (weight people) (hypotheses order people) n)
               people n Hn).
    + unfold tally, ind. cbn [gene trait_d gene2 gene1 gene0 traitT traitF].
      repeat split. apply qsum_ext. intros h _.
      destruct (trait_of h n); reflexivity.
Qed.

Lemma enumerate_marginalizes_witness :
  exists probabilities,
    enumerate (fun s => s) family0 = Ok probabilities /\
    Dict.keys probabilities = Dict.keys family0.
Proof.
  destruct (enumerate_marginalizes (fun s => s) family0) as [probs [H1 [H2 _]]].
  - intros s. apply Permutation_refl.
  - discriminate.
  - intros e He Hd. apply resolves_false_dangling in Hd.
    vm_compute in He. destruct He as [<-|[<-|[<-|[]]]]; vm_compute in Hd;
      discriminate.
  - exists probs. split; assumption.
Defined.

Lemma length_flat_map_sum {A B} (f : A -> list B) (l : list A) :
  List.length (flat_map f l) = list_sum (map (fun a => List.length (f a)) l).
Proof.
  induction l as [|a l IH]; [reflexivity|].
  simpl. rewrite length_app, IH. reflexivity.
Qed.

Lemma list_sum_perm (l l' : list nat) :
  Permutation l l' -> list_sum l = list_sum l'.
Proof.
  induction 1 as [|a l l' _ IH|a b l|l1 l2 l3 _ IH1 _ IH2]; simpl; lia.
Qed.

Lemma list_sum_map_ext {A} (f g : A -> nat) (l : list A) :
  (forall a, In a l -> f a = g a) ->
  list_sum (map f l) = list_sum (map g l).
Proof.
  intros H. f_equal. apply map_ext_in. exact H.
Qed.

Lemma list_sum_filter_const {A} (b : A -> bool) (k : nat) (l : list A) :
  list_sum (map (fun a => if b a then k else 0%nat) l)
  = (k * List.length (filter b l))%nat.
Proof.
  induction l as [|a l IH]; simpl; [lia|].
  rewrite IH. destruct (b a); simpl; lia.
Qed.

Lemma subseqs_length_le {A} (l c : list A) :
  In c (subseqs l) -> (List.length c <= List.length l)%nat.
Proof.
  revert c. induction l as [|x l IH]; intros c Hin; simpl in Hin.
  - destruct Hin as [<-|[]]. simpl. lia.
  - apply in_app_or in Hin. destruct Hin as [Hin|Hin].
    + pose proof (IH c Hin). simpl. lia.
    + apply in_map_iff in Hin. destruct Hin as [c' [<- Hc']].
      pose proof (IH c' Hc'). simpl. lia.
Qed.

Lemma sum_pow_subseqs {A} (l : list A) :
  forall k, (List.length l <= k)%nat ->
    list_sum (map (fun og => (2 ^ (k - List.length og))%nat) (subseqs l))
    = (2 ^ (k - List.length l) * 3 ^ List.length l)%nat.
Proof.
  induction l as [|x l IH]; intros k Hk.
  - simpl. rewrite Nat.sub_0_r. lia.
  - cbn [subseqs]. rewrite map_app, list_sum_app, map_map.
    cbn [List.length] in *.
    rewrite (IH k) by lia.
    rewrite (list_sum_map_ext
               (fun og => (2 ^ (k - S (List.length og)))%nat)
               (fun og => (2 ^ (k - 1 - List.length og))%nat))
      by (intros og _; f_equal; lia).
    rewrite (IH (k - 1)%nat) by lia.
    replace (k - List.length l)%nat with (S (k - S (List.length l))) by lia.
    replace (k - 1 - List.length l)%nat with (k - S (List.length l))%nat by lia.
    cbn [Nat.pow]. lia.
Qed.

Lemma plist_length {A} (l : list A) :
  List.length (plist l) = (2 ^ List.length l)%nat.
Proof.
  rewrite (Permutation_length (plist_subseqs l)). apply subseqs_length.
Qed.

Lemma set_diff_length (names og : pyset) :
  NoDup names -> NoDup og -> incl og names ->
  List.length (set_diff names og)
  = (List.length names - List.length og)%nat.
Proof.
  intros Hn Ho Hincl.
  pose proof (Permutation_length (perm_split names og Hn Ho Hincl)) as H.
  rewrite length_app in H. unfold others in H. unfold set_diff. lia.
Qed.

Lemma gene_sets_count (order : pyset -> list string) (names : pyset) :
  order_ok order -> NoDup names ->
  list_sum (map (fun og => List.length (powerset order (set_diff names og)))
                (powerset order names))
  = (3 ^ List.length names)%nat.
Proof.
  intros Hord Hnd.
  assert (Hnd' : NoDup (order names))
    by (apply (Permutation_NoDup (Permutation_sym (Hord names))); exact Hnd).
  assert (Hlen : List.length (order names) = List.length names)
    by (apply Permutation_length, Hord).
  rewrite (list_sum_map_ext _
             (fun og => (2 ^ (List.length (order names) - List.length og))%nat)).
  - rewrite powerset_plist.
    rewrite (list_sum_perm _ _
               (Permutation_map _ (plist_subseqs (order names)))).
    rewrite sum_pow_subseqs by lia.
    rewrite Nat.sub_diag, Hlen. simpl. lia.
  - intros og Hog. rewrite powerset_plist, plist_length.
    rewrite (Permutation_length (Hord _)). f_equal. rewrite Hlen.
    apply set_diff_length; [exact Hnd| |].
    + rewrite powerset_plist in Hog.
      apply (Permutation_in og (plist_subseqs (order names))) in Hog.
      exact (subseqs_NoDup_member _ og Hnd' Hog).
    + exact (powerset_incl order names og Hord Hog).
Qed.

(** The cost of the loop: for every trait set that passes the
    evidence check it calls [joint_probability] 3 to the power of the
    number of people times, once for each way to give everybody no, one or
    two copies.  When nobody's trait is observed, every one of the 2 to
    the power of the number of people trait sets passes, which makes 6 to
    that power calls. *)
Lemma hypotheses_count (order : pyset -> list string)
  (people : Dict.t person) :
  order_ok order -> Dict.wf people ->
  List.length (hypotheses order people)
  = (3 ^ List.length people
     * List.length (filter (consistent people)
                           (powerset order (Dict.keys people))))%nat /\
  ((forall e, In e people -> trait (snd e) = None) ->
   List.length (hypotheses order people) = (6 ^ List.length people)%nat).
Proof.
  intros Hord Hwf.
  assert (Hn : List.length (Dict.keys people) = List.length people)
    by (apply length_map).
  assert (Hcount :
            List.length (hypotheses order people)
            = (3 ^ List.length people
               * List.length (filter (consistent people)
                                     (powerset order (Dict.keys people))))%nat).
  { unfold hypotheses. rewrite length_flat_map_sum.
    rewrite (list_sum_map_ext _
               (fun ht => if consistent people ht
                          then (3 ^ List.length people)%nat else 0%nat)).
    - apply list_sum_filter_const.
    - intros ht _. unfold consistent.
      rewrite (existsb_perm _ _ _ (Hord (Dict.keys people))).
      destruct (existsb (violates people ht) (Dict.keys people)); cbn [negb];
        [reflexivity|].
      rewrite length_flat_map_sum.
      rewrite (list_sum_map_ext _
                 (fun og => List.length
                              (powerset order (set_diff (Dict.keys people) og))))
        by (intros og _; apply length_map).
      rewrite (gene_sets_count order (Dict.keys people) Hord Hwf), Hn.
      reflexivity. }
  split; [exact Hcount|].
  intros Hnone. rewrite Hcount.
  rewrite forallb_filter_id.
  - rewrite powerset_plist, plist_length, (Permutation_length (Hord _)), Hn.
    rewrite <- Nat.pow_mul_l. reflexivity.
  - apply forallb_forall. intros ht _.
    apply consistent_no_evidence. exact Hnone.
Qed.

(** ** The order of the rows does not matter *)














(** ** One more person in the file *)



Section OneMore.

Variable order : pyset -> list string.
Variable people : Dict.t person.
Variable z : string.
Variable pz : person.

Hypothesis Hord : order_ok order.
Hypothesis Hwf : Dict.wf people.
Hypothesis Hnew : ~ In z (Dict.keys people).
Hypothesis Hnone : trait pz = None.
(** Nobody, the new person included, has the new person as a parent. *)
Hypothesis Hchildless :
  forall e, In e (people ++ [(z, pz)]) ->
            mother (snd e) <> Some z /\ father (snd e) <> Some z.







End OneMore.



(** ** The trait of a founder whose line shows no evidence *)









(** ** A founder whose own trait is observed *)





(** ** How many trait sets pass the evidence check *)










